(** * probe-finder.c : C expression to kprobe event converter

    A shallow embedding of the parts of
    [tools/perf/util/probe-finder.c] (linux-2.6.35) that decide the
    line list, the DIE navigator, the location, type and field
    conversions, the probe-point capacity check, the lazy matcher,
    the source path resolution and the reverse lookup.

    Conventions of the model:
    - an error return [-e] of the C code is [Err e] with the errno [e];
    - heap allocations ([zalloc], [strdup], [malloc]) are modelled as
      succeeding, so the [-ENOMEM] paths are not represented;
    - a C string is a Rocq [string] read up to its first NUL byte
      ([cchars]), as every libc routine reads it;
    - undefined behaviour reached by the C code (a NULL dereference,
      a read past a string terminator) is the outcome [Fault]. *)

From Stdlib Require Import ZArith List String Ascii Bool Lia.
From Stdlib Require Import Numbers.DecimalString Sorting.Sorted.
Import ListNotations.
Set Warnings "-register-all".
Open Scope Z_scope.

(** ** errno values and results *)

Definition E2BIG : Z := 7.
Definition ENOENT : Z := 2.
Definition EROFS : Z := 30.
Definition EFAULT : Z := 14.
Definition EINVAL : Z := 22.
Definition ERANGE : Z := 34.
Definition ENAMETOOLONG : Z := 36.
Definition ENOTSUP : Z := 95.

Inductive res (A : Type) : Type :=
| Ok (a : A)
| Err (e : Z)
| Fault.
Arguments Ok {A} a.
Arguments Err {A} e.
Arguments Fault {A}.

(** ** Machine integers *)

(** [Dwarf_Word] is an unsigned 64-bit word, [long] a signed one and
    [int] a signed 32-bit one; conversions wrap. *)
Definition word_of_Z (z : Z) : Z := z mod 2 ^ 64.
Definition long_of_word (w : Z) : Z :=
  if w <? 2 ^ 63 then w else w - 2 ^ 64.
Definition int_of_Z (z : Z) : Z :=
  let w := z mod 2 ^ 32 in if w <? 2 ^ 31 then w else w - 2 ^ 32.
Definition uint_of_Z (z : Z) : Z := z mod 2 ^ 32.

(** ** C strings *)

Definition uchar (c : ascii) : Z := Z.of_nat (nat_of_ascii c).

(** The bytes of a C string: everything before the first NUL. *)
Fixpoint cchars (s : string) : list Z :=
  match s with
  | EmptyString => []
  | String c r => if uchar c =? 0 then [] else uchar c :: cchars r
  end.

(** [strcmp] compares the unsigned bytes up to the terminator (value 0). *)
Fixpoint strcmp_l (l1 l2 : list Z) : Z :=
  match l1, l2 with
  | [], [] => 0
  | [], b :: _ => 0 - b
  | a :: _, [] => a
  | a :: r1, b :: r2 => if a =? b then strcmp_l r1 r2 else a - b
  end.

Definition strcmp (s1 s2 : string) : Z := strcmp_l (cchars s1) (cchars s2).

(** [char] is signed on the architectures the tool runs on. *)
Definition schar (b : Z) : Z := if b <? 128 then b else b - 256.

(** The loop of [strtailcmp], on the two strings read right to left:
    [while (--i1 >= 0 && --i2 >= 0)]. *)
Fixpoint strtailcmp_loop (r1 r2 : list Z) : Z :=
  match r1 with
  | [] => 0
  | a :: r1' =>
      match r2 with
      | [] => 0
      | b :: r2' => if a =? b then strtailcmp_loop r1' r2' else schar a - schar b
      end
  end.

(** static int strtailcmp(const char *s1, const char *s2) *)
Definition strtailcmp (s1 s2 : string) : Z :=
  strtailcmp_loop (rev (cchars s1)) (rev (cchars s2)).

(** [strchr(s, c)]: the suffix starting at the first [c], or NULL when
    the terminator comes first. *)
Fixpoint strchr (s : string) (c : ascii) : option string :=
  match s with
  | EmptyString => None
  | String x r =>
      if Ascii.eqb x c then Some s
      else if uchar x =? 0 then None else strchr r c
  end.

(** The string a C routine sees: the bytes before the first NUL. *)
Fixpoint cstr (s : string) : string :=
  match s with
  | EmptyString => EmptyString
  | String c r => if uchar c =? 0 then EmptyString else String c (cstr r)
  end.

(** Decimal rendering of [%d]. *)
Definition string_of_Z (z : Z) : string := NilEmpty.string_of_int (Z.to_int z).

(** ** DWARF data *)

(** A location operation of libdw: [Dwarf_Op { atom; number; number2 }];
    the operands are [Dwarf_Word]s (signed operands in two's complement). *)
Record Dwarf_Op := mkOp { atom : Z; number : Z; number2 : Z }.

Definition DW_OP_addr : Z := 3.
Definition DW_OP_plus_uconst : Z := 35.
Definition DW_OP_reg0 : Z := 80.
Definition DW_OP_reg31 : Z := 111.
Definition DW_OP_breg0 : Z := 112.
Definition DW_OP_breg31 : Z := 143.
Definition DW_OP_regx : Z := 144.
Definition DW_OP_fbreg : Z := 145.
Definition DW_OP_bregx : Z := 146.
Definition DW_OP_call_frame_cfa : Z := 156.

Definition DW_ATE_signed : Z := 5.
Definition DW_ATE_signed_char : Z := 6.
Definition DW_ATE_signed_fixed : Z := 13.

Inductive dw_tag :=
| DW_TAG_subprogram | DW_TAG_inlined_subroutine | DW_TAG_lexical_block
| DW_TAG_variable | DW_TAG_formal_parameter | DW_TAG_member
| DW_TAG_base_type | DW_TAG_structure_type | DW_TAG_pointer_type
| DW_TAG_array_type | DW_TAG_const_type | DW_TAG_restrict_type
| DW_TAG_volatile_type | DW_TAG_shared_type | DW_TAG_typedef
| DW_TAG_other.

Definition dw_tag_eqb (a b : dw_tag) : bool :=
  match a, b with
  | DW_TAG_subprogram, DW_TAG_subprogram
  | DW_TAG_inlined_subroutine, DW_TAG_inlined_subroutine
  | DW_TAG_lexical_block, DW_TAG_lexical_block
  | DW_TAG_variable, DW_TAG_variable
  | DW_TAG_formal_parameter, DW_TAG_formal_parameter
  | DW_TAG_member, DW_TAG_member
  | DW_TAG_base_type, DW_TAG_base_type
  | DW_TAG_structure_type, DW_TAG_structure_type
  | DW_TAG_pointer_type, DW_TAG_pointer_type
  | DW_TAG_array_type, DW_TAG_array_type
  | DW_TAG_const_type, DW_TAG_const_type
  | DW_TAG_restrict_type, DW_TAG_restrict_type
  | DW_TAG_volatile_type, DW_TAG_volatile_type
  | DW_TAG_shared_type, DW_TAG_shared_type
  | DW_TAG_typedef, DW_TAG_typedef
  | DW_TAG_other, DW_TAG_other => true
  | _, _ => false
  end.

(** [DW_AT_location]: a single expression, or a location list of
    [[lo, hi)] ranges. *)
Inductive loc_attr :=
| LocExpr (ops : list Dwarf_Op)
| LocList (entries : list (Z * Z * list Dwarf_Op)).

(** [DW_AT_data_member_location]: a constant, or an expression. *)
Inductive member_loc_attr :=
| MemberConst (offs : Z)
| MemberExpr (ops : list Dwarf_Op).

(** The attributes of a DIE the converter reads. *)
Record die_attrs := mkAttrs {
  a_tag : dw_tag;
  a_name : option string;          (* DW_AT_name *)
  a_ranges : list (Z * Z);         (* DW_AT_low_pc/high_pc/ranges *)
  a_entrypc : option Z;            (* dwarf_entrypc *)
  a_decl_line : option Z;          (* DW_AT_decl_line *)
  a_byte_size : option Z;          (* DW_AT_byte_size, a Dwarf_Word *)
  a_encoding : option Z;           (* DW_AT_encoding *)
  a_location : option loc_attr;    (* DW_AT_location *)
  a_frame_base : option loc_attr;  (* DW_AT_frame_base *)
  a_member_loc : option member_loc_attr
}.

Definition no_attrs (t : dw_tag) : die_attrs :=
  mkAttrs t None [] None None None None None None None.

(** A DIE: its attributes, the DIE its [DW_AT_type] refers to, and its
    children in order. *)
Inductive die := Die (attrs : die_attrs) (type : option die) (children : list die).

Definition die_attrs_of (d : die) : die_attrs := let (a, _, _) := d in a.
Definition dwarf_tag (d : die) : dw_tag := a_tag (die_attrs_of d).
Definition dwarf_diename (d : die) : option string := a_name (die_attrs_of d).
Definition dwarf_decl_line (d : die) : option Z := a_decl_line (die_attrs_of d).
Definition dwarf_entrypc (d : die) : option Z := a_entrypc (die_attrs_of d).
Definition die_type_ref (d : die) : option die := let (_, t, _) := d in t.
Definition die_children (d : die) : list die := let (_, _, c) := d in c.

Definition dwarf_haspc (d : die) (pc : Z) : bool :=
  existsb (fun r => (fst r <=? pc) && (pc <? snd r)) (a_ranges (die_attrs_of d)).

(** dwarf_getlocation_addr(attr, addr, &ops, &nops, 1): the first
    expression covering [addr]. *)
Definition dwarf_getlocation_addr (la : loc_attr) (addr : Z) : option (list Dwarf_Op) :=
  match la with
  | LocExpr ops => Some ops
  | LocList es =>
      match find (fun e => let '(lo, hi, _) := e in (lo <=? addr) && (addr <? hi)) es with
      | Some (_, _, ops) => Some ops
      | None => None
      end
  end.

(** ** DIE navigator *)

(** static bool die_compare_name(Dwarf_Die *dw_die, const char *tname):
    [return name ? strcmp(tname, name) : -1;] converted to [bool]. *)
Definition die_compare_name (d : die) (tname : string) : bool :=
  match dwarf_diename d with
  | Some name => negb (strcmp tname name =? 0)
  | None => true
  end.

Definition is_qualifier_tag (t : dw_tag) : bool :=
  match t with
  | DW_TAG_const_type | DW_TAG_restrict_type | DW_TAG_volatile_type
  | DW_TAG_shared_type | DW_TAG_typedef => true
  | _ => false
  end.

(** die_get_real_type: follow DW_AT_type through qualifiers and typedefs. *)
Fixpoint die_get_real_type (vr : die) : option die :=
  match vr with
  | Die _ None _ => None
  | Die _ (Some t) _ =>
      if is_qualifier_tag (dwarf_tag t) then die_get_real_type t else Some t
  end.

Definition die_is_signed_type (tp : die) : bool :=
  match a_encoding (die_attrs_of tp) with
  | Some e => (e =? DW_ATE_signed_char) || (e =? DW_ATE_signed) || (e =? DW_ATE_signed_fixed)
  | None => false
  end.

(** [return (int)ret;] or 0 when the attribute is missing. *)
Definition die_get_byte_size (tp : die) : Z :=
  match a_byte_size (die_attrs_of tp) with
  | Some w => int_of_Z w
  | None => 0
  end.

Definition die_get_data_member_location (mb : die) : res Z :=
  match a_member_loc (die_attrs_of mb) with
  | None => Err ENOENT
  | Some (MemberConst offs) => Ok offs
  | Some (MemberExpr []) => Err ENOENT
  | Some (MemberExpr (op :: rest)) =>
      if negb (atom op =? DW_OP_plus_uconst) || negb (List.length rest =? 0)%nat
      then Err ENOTSUP else Ok (number op)
  end.

(** Callback results of die_find_child. *)
Definition DIE_FIND_CB_FOUND : Z := 0.
Definition DIE_FIND_CB_CHILD : Z := 1.
Definition DIE_FIND_CB_SIBLING : Z := 2.
Definition DIE_FIND_CB_CONTINUE : Z := 3.

(** static Dwarf_Die *die_find_child(rt_die, callback, data, die_mem) *)
Fixpoint die_find_child (callback : die -> Z) (rt : die) : option die :=
  let fix walk (l : list die) : option die :=
    match l with
    | [] => None
    | d :: sibs =>
        let ret := callback d in
        if ret =? DIE_FIND_CB_FOUND then Some d
        else match (if Z.testbit ret 0 then die_find_child callback d else None) with
             | Some c => Some c
             | None => if Z.testbit ret 1 then walk sibs else None
             end
    end in
  match rt with Die _ _ ch => walk ch end.

Definition die_find_inline_cb (addr : Z) (d : die) : Z :=
  if dw_tag_eqb (dwarf_tag d) DW_TAG_inlined_subroutine && dwarf_haspc d addr
  then DIE_FIND_CB_FOUND else DIE_FIND_CB_CONTINUE.

Definition die_find_inlinefunc (sp : die) (addr : Z) : option die :=
  die_find_child (die_find_inline_cb addr) sp.

Definition die_find_member_cb (name : string) (d : die) : Z :=
  if dw_tag_eqb (dwarf_tag d) DW_TAG_member && negb (die_compare_name d name)
  then DIE_FIND_CB_FOUND else DIE_FIND_CB_SIBLING.

Definition die_find_member (st : die) (name : string) : option die :=
  die_find_child (die_find_member_cb name) st.

(** die_find_real_subprogram: dwarf_getfuncs walks the subprograms of the
    CU; the first whose ranges hold [addr] is taken. *)
Definition die_find_real_subprogram (cu : die) (addr : Z) : option die :=
  find (fun d => dw_tag_eqb (dwarf_tag d) DW_TAG_subprogram && dwarf_haspc d addr)
       (die_children cu).

(** ** Probe finder: variable conversion *)

(** The fields of [struct probe_finder] the variable conversion reads:
    the probe address and [fb_ops], a pointer to the frame-base
    operations of which only the first one, [fb_ops[0]], is read. *)
Record probe_finder := mkPF { pf_addr : Z; pf_fb_ops : option Dwarf_Op }.

(** struct perf_probe_arg_field: [name] (["[N]"] for an index), [ref]
    ([->] rather than [.]) and [index]. *)
Record perf_probe_arg_field := mkField { f_name : string; f_ref : bool; f_index : Z }.

(** struct perf_probe_arg: the variable, its field chain, its cast. *)
Record perf_probe_arg := mkPArg {
  pv_var : string; pv_field : list perf_probe_arg_field; pv_type : option string }.

(** The converted part of struct kprobe_trace_arg: [value], the [ref]
    chain (the offsets of the indirection frames, from the one applied
    to [value] outwards) and [type]. *)
Record kprobe_trace_arg := mkTArg {
  ta_value : string; ta_ref : list Z; ta_type : option string }.

Definition field_is_index (f : perf_probe_arg_field) : bool :=
  match f_name f with
  | String c _ => Ascii.eqb c "["%char
  | EmptyString => false
  end.

Definition wrap_long (z : Z) : Z := long_of_word (word_of_Z z).

(** [ref->offset += v] on the current (last) frame of the chain; with no
    frame, [ref] is NULL and the write faults. *)
Fixpoint ref_add_last (chain : list Z) (v : Z) : option (list Z) :=
  match chain with
  | [] => None
  | [x] => Some [wrap_long (x + v)]
  | x :: r => option_map (cons x) (ref_add_last r v)
  end.

Section Converter.

(** The architecture register table: [get_arch_regstr(n)]. *)
Variable get_arch_regstr : Z -> option string.

(** static int convert_variable_location(Dwarf_Die *vr_die,
    struct probe_finder *pf): on success, [tvar->value] and [tvar->ref]. *)
Definition convert_variable_location (vr : die) (pf : probe_finder)
  : res (string * list Z) :=
  match option_map (fun la => dwarf_getlocation_addr la (pf_addr pf))
                   (a_location (die_attrs_of vr)) with
  | None | Some None | Some (Some []) => Err ENOENT
  | Some (Some (op0 :: _)) =>
    if atom op0 =? DW_OP_addr then
      (* Static variables on memory (not stack), make @varname *)
      match dwarf_diename vr with
      | Some n => Ok (("@" ++ cstr n)%string, [long_of_word 0])
      | None => Fault
      end
    else
      (* If this is based on frame buffer, set the offset *)
      let fb : option (bool * Z * Dwarf_Op) :=
        if atom op0 =? DW_OP_fbreg then
          match pf_fb_ops pf with
          | None => None
          | Some fb0 => Some (true, number op0, fb0)
          end
        else Some (false, 0, op0) in
      match fb with
      | None => Err ENOTSUP
      | Some (ref, offs, op) =>
        let dec : option (Z * Z * bool) :=
          if (DW_OP_breg0 <=? atom op) && (atom op <=? DW_OP_breg31) then
            Some (atom op - DW_OP_breg0, word_of_Z (offs + number op), true)
          else if (DW_OP_reg0 <=? atom op) && (atom op <=? DW_OP_reg31) then
            Some (atom op - DW_OP_reg0, offs, ref)
          else if atom op =? DW_OP_bregx then
            Some (uint_of_Z (number op), word_of_Z (offs + number2 op), true)
          else if atom op =? DW_OP_regx then
            Some (uint_of_Z (number op), offs, ref)
          else None in
        match dec with
        | None => Err ENOTSUP
        | Some (regn, offs', ref') =>
          match get_arch_regstr regn with
          | None => Err ERANGE
          | Some regs => Ok (regs, if ref' then [long_of_word offs'] else [])
          end
        end
      end
  end.

End Converter.

Definition MAX_BASIC_TYPE_BITS : Z := 64.

(** static int convert_variable_type(Dwarf_Die *vr_die, struct
    kprobe_trace_arg *targ): the type tag ([None] leaves [targ->type]
    unset) and the [pr_info] messages. *)
Definition convert_variable_type (vr : die) : res (option string) * list string :=
  match die_get_real_type vr with
  | None => (Err ENOENT, [])
  | Some type =>
    let ret := int_of_Z (die_get_byte_size type * 8) in
    if ret =? 0 then (Ok None, [])
    else
      let tname := match dwarf_diename type with Some n => cstr n | None => "(null)"%string end in
      let '(bits, info) :=
        if ret >? MAX_BASIC_TYPE_BITS
        then (MAX_BASIC_TYPE_BITS,
              [(tname ++ " exceeds max-bitwidth. Cut down to 64 bits.")%string])
        else (ret, []) in
      let buf := String (if die_is_signed_type type then "s" else "u")%char
                        (string_of_Z bits) in
      if (16 <=? Z.of_nat (String.length buf)) then (Err E2BIG, info)
      else (Ok (Some buf), info)
  end.

Definition is_pointer_tag (t : dw_tag) : bool := dw_tag_eqb t DW_TAG_pointer_type.
Definition is_array_tag (t : dw_tag) : bool := dw_tag_eqb t DW_TAG_array_type.
Definition is_struct_tag (t : dw_tag) : bool := dw_tag_eqb t DW_TAG_structure_type.

(** static int convert_variable_fields(vr_die, varname, field, ref_ptr,
    die_mem): the resulting [ref] chain and the DIE left in [die_mem]
    (the one whose type is converted afterwards).  The current frame
    [ref] is the last one of the chain; a new frame is appended. *)
Fixpoint convert_variable_fields (vr : die) (varname : string)
    (fl : list perf_probe_arg_field) (chain : list Z) (die_mem : die)
    {struct fl} : res (list Z * die) :=
  match fl with
  | [] => Ok (chain, die_mem)
  | f :: next =>
    (* next: converting next field *)
    let go_next (chain' : list Z) (die_mem' : die) : res (list Z * die) :=
      match next with
      | [] => Ok (chain', die_mem')
      | _ :: _ => convert_variable_fields die_mem' (f_name f) next chain' die_mem'
      end in
    let member_step (st : die) (ch : list Z) : res (list Z * die) :=
      match die_find_member st (f_name f) with
      | None => Err EINVAL
      | Some mb =>
        match die_get_data_member_location mb with
        | Err e => Err e
        | Fault => Fault
        | Ok offs =>
          match ref_add_last ch (long_of_word offs) with
          | None => Fault
          | Some ch' => go_next ch' mb
          end
        end
      end in
    match die_get_real_type vr with
    | None => Err ENOENT
    | Some type =>
      let tag := dwarf_tag type in
      if field_is_index f && (is_array_tag tag || is_pointer_tag tag) then
        (* Save original type for next field *)
        let die_mem1 := match next with [] => die_mem | _ => type end in
        match die_get_real_type type with
        | None => Err ENOENT
        | Some ety =>
          let chain1 := if is_pointer_tag tag then chain ++ [0] else chain in
          match ref_add_last chain1 (die_get_byte_size ety * f_index f) with
          | None => Fault
          | Some chain2 =>
            (* Save vr_die for converting types *)
            let die_mem2 := match next with [] => vr | _ => die_mem1 end in
            go_next chain2 die_mem2
          end
        end
      else if is_pointer_tag tag then
        if negb (f_ref f) then Err EINVAL
        else match die_get_real_type type with
             | None => Err ENOENT
             | Some st =>
               if negb (is_struct_tag (dwarf_tag st)) then Err EINVAL
               else member_step st (chain ++ [0])
             end
      else if negb (is_struct_tag tag) then Err EINVAL
      else if field_is_index f then Err EINVAL
      else if f_ref f then Err EINVAL
      else match chain with
           | [] => Err ENOTSUP   (* Structure on a register *)
           | _ :: _ => member_step type chain
           end
    end
  end.

(** static int convert_variable(Dwarf_Die *vr_die, struct probe_finder *pf)
    (the [pr_info] messages of the type conversion are dropped). *)
Definition convert_variable (get_arch_regstr : Z -> option string)
    (vr : die) (pf : probe_finder) (pvar : perf_probe_arg) : res kprobe_trace_arg :=
  match convert_variable_location get_arch_regstr vr pf with
  | Err e => Err e
  | Fault => Fault
  | Ok (value, ref) =>
    let fields : res (list Z * die) :=
      match pv_field pvar with
      | [] => Ok (ref, vr)
      | fl => convert_variable_fields vr (pv_var pvar) fl ref vr
      end in
    match fields with
    | Err e => Err e
    | Fault => Fault
    | Ok (ref', vr') =>
      match pv_type pvar with
      | Some t => Ok (mkTArg value ref' (Some (cstr t)))
      | None =>
        match fst (convert_variable_type vr') with
        | Ok ty => Ok (mkTArg value ref' ty)
        | Err e => Err e
        | Fault => Fault
        end
      end
    end
  end.

(** ** Line number list *)

(** The reverse search of [line_list__add_line], on the list read from
    its tail: [None] when the line already exists, otherwise the
    reversed list with the new node linked after the first smaller
    entry met (or at the head of the list when there is none). *)
Fixpoint line_list_rsearch (rl : list Z) (line : Z) : option (list Z) :=
  match rl with
  | [] => Some [line]
  | ln :: rest =>
      if ln <? line then Some (line :: ln :: rest)
      else if ln =? line then None
      else option_map (cons ln) (line_list_rsearch rest line)
  end.

(** static int line_list__add_line(struct list_head *head, int line):
    0 when added, 1 when already present. *)
Definition line_list__add_line (head : list Z) (line : Z) : Z * list Z :=
  match line_list_rsearch (rev head) line with
  | None => (1, head)
  | Some rl => (0, rev rl)
  end.

Definition line_list__has_line (head : list Z) (line : Z) : bool :=
  existsb (fun ln => ln =? line) head.

(** ** Lazy matcher *)

Section LazyMatch.

(** strlazymatch(str, pat), from util/string.c. *)
Variable strlazymatch : string -> string -> bool.

Definition NL : ascii := "010"%char.

(** The [while ((p2 = strchr(p1, '\n')) != NULL)] loop over the buffer:
    [acc] holds the bytes of the current line read so far (reversed);
    a NUL byte or the end of the buffer (its terminator) makes [strchr]
    return NULL. *)
Fixpoint lazy_match_loop (pat : string) (p : list ascii) (acc : list ascii)
    (line nlines : Z) (head : list Z) : Z * list Z :=
  match p with
  | [] => (nlines, head)
  | c :: p' =>
    if Ascii.eqb c NL then
      if strlazymatch (string_of_list_ascii (rev acc)) pat
      then lazy_match_loop pat p' [] (line + 1) (nlines + 1)
                           (snd (line_list__add_line head line))
      else lazy_match_loop pat p' [] (line + 1) nlines head
    else if uchar c =? 0 then (nlines, head)
    else lazy_match_loop pat p' (c :: acc) line nlines head
  end.

(** static int find_lazy_match_lines(head, fname, pat), from the bytes
    the file read returned: the buffer is the file plus the dummy
    ['\n'] line and the terminator. *)
Definition find_lazy_match_lines (head : list Z) (content pat : string) : Z * list Z :=
  lazy_match_loop pat (list_ascii_of_string content ++ [NL]) [] 1 0 head.

End LazyMatch.

(** ** Source path resolution *)

Section RealPath.

(** access(path, R_OK): 0, or the errno it sets. *)
Variable access : string -> Z.

Definition retry_errno (e : Z) : bool :=
  (e =? ENAMETOOLONG) || (e =? ENOENT) || (e =? EROFS) || (e =? EFAULT).

Inductive real_path_step :=
| PathFound (path : string)
| PathFail (e : Z)
| PathRetry (raw_path : string)
| PathFault.

(** One turn of the [for (;;)] loop of get_real_path with the prefix
    [prefix]: the [sprintf] of ["%s/%s"] into [new_path], [access],
    and on a retryable errno [raw_path = strchr(++raw_path, '/')]. *)
Definition get_real_path_step (prefix raw_path : string) : real_path_step :=
  let new_path := (cstr prefix ++ "/" ++ cstr raw_path)%string in
  let e := access new_path in
  if e =? 0 then PathFound new_path
  else if retry_errno e then
    match raw_path with
    | EmptyString => PathFault            (* ++raw_path past the terminator *)
    | String c r =>
        if uchar c =? 0 then PathFault
        else match strchr r "/"%char with
             | None => PathFail ENOENT
             | Some r' => PathRetry r'
             end
    end
  else PathFail e.

Fixpoint get_real_path_loop (prefix : string) (fuel : nat) (raw_path : string)
  : option (res string) :=
  match fuel with
  | O => None
  | S fuel' =>
    match get_real_path_step prefix raw_path with
    | PathFound p => Some (Ok p)
    | PathFail e => Some (Err e)
    | PathFault => Some Fault
    | PathRetry r => get_real_path_loop prefix fuel' r
    end
  end.

(** static int get_real_path(const char *raw_path, char **new_path);
    [None] would mean that the loop had not ended within one turn per
    byte of [raw_path]. *)
Definition get_real_path (source_prefix : option string) (raw_path : string)
  : option (res string) :=
  match source_prefix with
  | None =>
      let e := access (cstr raw_path) in
      Some (if e =? 0 then Ok (cstr raw_path) else Err e)
  | Some prefix => get_real_path_loop prefix (S (String.length raw_path)) raw_path
  end.

End RealPath.

(** ** Probe points *)

(** struct kprobe_trace_event: the probe point and the arguments. *)
Record kprobe_trace_event := mkTev {
  tev_symbol : option string; tev_offset : Z; tev_args : list kprobe_trace_arg }.

Definition tev_empty : kprobe_trace_event := mkTev None 0 [].

(** The capacity fields of [struct probe_finder]: [ntevs], [max_tevs]
    and the [tevs] array of [max_tevs] slots. *)
Record pf_events := mkPFE {
  pf_ntevs : nat; pf_max_tevs : nat; pf_tevs : list kprobe_trace_event }.

(** [tevs[n] = x] on the array. *)
Fixpoint list_set {A : Type} (l : list A) (n : nat) (x : A) : list A :=
  match l, n with
  | [], _ => []
  | _ :: r, O => x :: r
  | y :: r, S n' => y :: list_set r n' x
  end.

Section ProbePoint.

(** The body of convert_probe_point after the slot
    [tev = &pf->tevs[pf->ntevs++]] is claimed: it resolves the
    subprogram, the frame base and the arguments at [addr], writes them
    into [*tev] only, and returns its [ret]. *)
Variable fill_probe_point : Z -> res unit * kprobe_trace_event.

(** static int convert_probe_point(Dwarf_Die *sp_die, struct probe_finder *pf) *)
Definition convert_probe_point (pf : pf_events) (addr : Z) : pf_events * res unit :=
  if Nat.eqb (pf_ntevs pf) (pf_max_tevs pf) then (pf, Err ERANGE)
  else
    let '(ret, tev) := fill_probe_point addr in
    (mkPFE (S (pf_ntevs pf)) (pf_max_tevs pf)
           (list_set (pf_tevs pf) (pf_ntevs pf) tev), ret).

(** The search loops ([for (i = 0; i < nlines && ret == 0; i++)] in
    find_probe_point_by_line and its siblings) over the candidate
    addresses, stopping at the first non-zero [ret]. *)
Fixpoint find_probe_points (pf : pf_events) (addrs : list Z) : pf_events * res unit :=
  match addrs with
  | [] => (pf, Ok tt)
  | a :: rest =>
    let '(pf', ret) := convert_probe_point pf a in
    match ret with
    | Ok _ => find_probe_points pf' rest
    | _ => (pf', ret)
    end
  end.

End ProbePoint.

(** [struct probe_finder] as set up by find_kprobe_trace_events. *)
Definition pf_events_init (max_tevs : nat) : pf_events :=
  mkPFE 0 max_tevs (repeat tev_empty max_tevs).

(** ** Reverse lookup *)

(** struct perf_probe_point (the fields the reverse lookup sets). *)
Record perf_probe_point := mkPPT {
  pp_file : option string; pp_function : option string;
  pp_line : Z; pp_offset : Z }.

Definition ppt_zero : perf_probe_point := mkPPT None None 0 0.

(** The line entry dwarf_getsrc_die returns: dwarf_lineaddr,
    dwarf_lineno and dwarf_linesrc. *)
Record dwarf_line := mkLine {
  ln_addr : option Z; ln_lineno : option Z; ln_src : option string }.

(** [ret = dwarf_decl_line(die, &lineno)]: 0 and the line, or -1. *)
Definition decl_line_ret (d : die) : Z * Z :=
  match dwarf_decl_line d with Some l => (0, l) | None => (-1, 0) end.

(** int find_perf_probe_point(int fd, unsigned long addr, struct
    perf_probe_point *ppt), from the CU dwarf_addrdie finds and the line
    dwarf_getsrc_die returns: the return value and [*ppt]. *)
Definition find_perf_probe_point (cu : option die) (line : option dwarf_line)
    (addr : Z) (ppt : perf_probe_point) : Z * perf_probe_point :=
  match cu with
  | None => (- EINVAL, ppt)
  | Some cudie =>
    (* Find a corresponding line *)
    let '(ppt1, found1) :=
      match line with
      | Some l =>
        match ln_addr l, ln_lineno l, ln_src l with
        | Some laddr, Some lineno, Some src =>
            if addr =? laddr
            then (mkPPT (Some (cstr src)) (pp_function ppt) lineno (pp_offset ppt), true)
            else (ppt, false)
        | _, _, _ => (ppt, false)
        end
      | None => (ppt, false)
      end in
    (* Find a corresponding function *)
    let '(ret, ppt2, found2) :=
      match die_find_real_subprogram cudie addr with
      | None => (0, ppt1, found1)
      | Some spdie =>
        match dwarf_diename spdie, dwarf_entrypc spdie with
        | Some sname, Some eaddr =>
          let at_offset (ret : Z) (tmp : string) :=
            (* We don't have a line number, let's use offset *)
            (ret, mkPPT (pp_file ppt1) (Some (cstr tmp)) (pp_line ppt1)
                        (word_of_Z (addr - eaddr)), true) in
          if negb (pp_line ppt1 =? 0) then
            let anchor : option (Z * Z * string) :=
              match die_find_inlinefunc spdie addr with
              | Some indie =>
                match dwarf_diename indie with
                | None => None
                | Some iname => let '(r, l) := decl_line_ret indie in Some (r, l, iname)
                end
              | None =>
                if eaddr =? addr then Some (0, pp_line ppt1, sname)  (* Function entry *)
                else let '(r, l) := decl_line_ret spdie in Some (r, l, sname)
              end in
            match anchor with
            | None => (0, ppt1, found1)              (* goto end *)
            | Some (r, lineno, tmp) =>
              if r =? 0 then
                (* Make a relative line number *)
                (r, mkPPT (pp_file ppt1) (Some (cstr tmp)) (pp_line ppt1 - lineno)
                          (pp_offset ppt1), true)
              else at_offset r tmp
            end
          else at_offset 0 sname
        | _, _ => (0, ppt1, found1)                  (* goto end *)
        end
      end in
    (if ret >=? 0 then (if found2 then 1 else 0) else ret, ppt2)
  end.

(** ** Further DIE searches *)

(** static int __die_find_variable_cb(Dwarf_Die *die_mem, void *data) *)
Definition die_find_variable_cb (name : string) (d : die) : Z :=
  if (dw_tag_eqb (dwarf_tag d) DW_TAG_formal_parameter
      || dw_tag_eqb (dwarf_tag d) DW_TAG_variable)
     && negb (die_compare_name d name)
  then DIE_FIND_CB_FOUND else DIE_FIND_CB_CONTINUE.

(** static Dwarf_Die *die_find_variable(sp_die, name, die_mem) *)
Definition die_find_variable (sp : die) (name : string) : option die :=
  die_find_child (die_find_variable_cb name) sp.

(** static const char *cu_find_realpath(Dwarf_Die *cu_die, const char *fname),
    from the names dwarf_filesrc gives for the files of the CU
    ([None] when dwarf_getsrcfiles fails). *)
Definition cu_find_realpath (files : option (list string)) (fname : option string)
  : option string :=
  match fname with
  | None => None
  | Some f =>
    match files with
    | None => None
    | Some fs => find (fun src => strtailcmp src f =? 0) fs
    end
  end.

(** The subprograms dwarf_getfuncs passes to its callback: the
    [DW_TAG_subprogram] children of the CU, in order. *)
Definition cu_subprograms (cu : die) : list die :=
  filter (fun d => dw_tag_eqb (dwarf_tag d) DW_TAG_subprogram) (die_children cu).

(** ** Probe finder: argument lookup *)

(** [ptr = strchr(buf, ':'); if (ptr) *ptr = '_';] *)
Fixpoint replace_first_colon (s : string) : string :=
  match s with
  | EmptyString => EmptyString
  | String c r =>
      if Ascii.eqb c ":"%char then String "_"%char r
      else if uchar c =? 0 then s
      else String c (replace_first_colon r)
  end.

Section FindVariable.

Variable get_arch_regstr : Z -> option string.

(** synthesize_perf_probe_arg(pvar, buf, 32) of probe-event.c: the text
    written into [buf], or the error it returns. *)
Variable synthesize_perf_probe_arg : perf_probe_arg -> res string.

(** is_c_varname of probe-event.h. *)
Variable is_c_varname : string -> bool.

(** dwarf_getscopes_die(sp_die, &scopes) followed by
    dwarf_getscopevar(scopes, nscopes, name, ...): the variable of that
    name in the scopes enclosing [sp_die], if there is one. *)
Variable scope_variable : die -> string -> option die.

(** [tvar->name]: [pvar->name], or the synthesized text with its type
    separator changed to ['_']. *)
Definition probe_arg_name (pname : option string) (pvar : perf_probe_arg) : res string :=
  match pname with
  | Some n => Ok (cstr n)
  | None =>
    match synthesize_perf_probe_arg pvar with
    | Ok buf => Ok (cstr (replace_first_colon buf))
    | Err e => Err e
    | Fault => Fault
    end
  end.

(** static int find_variable(Dwarf_Die *sp_die, struct probe_finder *pf):
    [tvar->name] and the converted argument. *)
Definition find_variable (sp : die) (pf : probe_finder) (pname : option string)
    (pvar : perf_probe_arg) : res (string * kprobe_trace_arg) :=
  match probe_arg_name pname pvar with
  | Err e => Err e
  | Fault => Fault
  | Ok name =>
    if negb (is_c_varname (pv_var pvar)) then
      (* Copy raw parameters *)
      Ok (name, mkTArg (cstr (pv_var pvar)) [] None)
    else
      let conv (vr : die) : res (string * kprobe_trace_arg) :=
        match convert_variable get_arch_regstr vr pf pvar with
        | Ok ta => Ok (name, ta)
        | Err e => Err e
        | Fault => Fault
        end in
      match die_find_variable sp (pv_var pvar) with
      | Some vr => conv vr
      | None =>
        (* Search upper class *)
        match scope_variable sp (pv_var pvar) with
        | Some vr => conv vr
        | None => Err ENOENT
        end
      end
  end.

End FindVariable.

(** ** Probe finder: searches over the line table *)

(** [strtailcmp(src, fname) == 0], either string possibly NULL, which
    [strlen] dereferences ([None]). *)
Definition tail_match (src fname : option string) : option bool :=
  match src, fname with
  | Some s, Some f => Some (strtailcmp s f =? 0)
  | _, _ => None
  end.

(** The address filtering of find_probe_point_lazy and
    find_line_range_by_line: with a subprogram, [addr] must be in it
    ([dwarf_haspc]) and in none of its inline instances. *)
Definition in_probe_scope (sp : option die) (addr : Z) : bool :=
  match sp with
  | None => true
  | Some s =>
      dwarf_haspc s addr &&
      match die_find_inlinefunc s addr with Some _ => false | None => true end
  end.

Section LineSearch.

(** The body of convert_probe_point(sp_die, pf) after the slot is
    claimed, for the [sp_die] it is given. *)
Variable fill_probe_point : option die -> Z -> res unit * kprobe_trace_event.

(** The loop [for (i = 0; i < nlines && ret == 0; i++)] of
    find_probe_point_by_line. *)
Fixpoint probe_by_line_loop (lno : Z) (fname : option string) (pf : pf_events)
    (lines : list dwarf_line) : pf_events * res unit :=
  match lines with
  | [] => (pf, Ok tt)
  | line :: rest =>
    match ln_lineno line with
    | None => probe_by_line_loop lno fname pf rest
    | Some lineno =>
      if negb (lineno =? lno) then probe_by_line_loop lno fname pf rest
      else
        match tail_match (ln_src line) fname with
        | None => (pf, Fault)
        | Some false => probe_by_line_loop lno fname pf rest
        | Some true =>
          match ln_addr line with
          | None => (pf, Err ENOENT)
          | Some addr =>
            let '(pf', ret) := convert_probe_point (fill_probe_point None) pf addr in
            match ret with
            | Ok _ => probe_by_line_loop lno fname pf' rest
            | _ => (pf', ret)
            end
          end
        end
    end
  end.

(** static int find_probe_point_by_line(struct probe_finder *pf), from
    the line table dwarf_getsrclines gives ([None] when it fails). *)
Definition find_probe_point_by_line (lno : Z) (fname : option string)
    (lines : option (list dwarf_line)) (pf : pf_events) : pf_events * res unit :=
  match lines with
  | None => (pf, Err ENOENT)
  | Some ls => probe_by_line_loop lno fname pf ls
  end.

(** The loop [for (i = 0; i < nlines && ret >= 0; i++)] of
    find_probe_point_lazy: [ret] enters non-negative and becomes the
    result of each convert_probe_point. *)
Fixpoint probe_lazy_loop (sp : option die) (fname : option string) (lcache : list Z)
    (ret : Z) (pf : pf_events) (lines : list dwarf_line) : pf_events * res Z :=
  match lines with
  | [] => (pf, Ok ret)
  | line :: rest =>
    match ln_lineno line with
    | None => probe_lazy_loop sp fname lcache ret pf rest
    | Some lineno =>
      if negb (line_list__has_line lcache lineno) then probe_lazy_loop sp fname lcache ret pf rest
      else
        match tail_match (ln_src line) fname with
        | None => (pf, Fault)
        | Some false => probe_lazy_loop sp fname lcache ret pf rest
        | Some true =>
          match ln_addr line with
          | None => probe_lazy_loop sp fname lcache ret pf rest
          | Some addr =>
            if negb (in_probe_scope sp addr) then probe_lazy_loop sp fname lcache ret pf rest
            else
              let '(pf', r) := convert_probe_point (fill_probe_point sp) pf addr in
              match r with
              | Ok _ => probe_lazy_loop sp fname lcache 0 pf' rest
              | Err e => (pf', Err e)
              | Fault => (pf', Fault)
              end
          end
        end
    end
  end.

Variable strlazymatch : string -> string -> bool.

(** open, fstat and read of the source file: the bytes read, or the
    errno of the call that failed. *)
Variable read_file : option string -> Z + string.

(** find_lazy_match_lines(head, fname, pat) on the file's bytes. *)
Definition find_lazy_match_lines_file (head : list Z) (fname : option string) (pat : string)
  : Z * list Z :=
  match read_file fname with
  | inl e => (- e, head)
  | inr content => find_lazy_match_lines strlazymatch head content pat
  end.

(** static int find_probe_point_lazy(Dwarf_Die *sp_die, struct probe_finder *pf):
    the line cache [pf->lcache], [*pf] and the result ([Ok ret] for a
    non-negative [ret]). *)
Definition find_probe_point_lazy (sp : option die) (fname : option string) (pat : string)
    (lines : option (list dwarf_line)) (lcache : list Z) (pf : pf_events)
  : list Z * pf_events * res Z :=
  let scan (ret : Z) (lc : list Z) : list Z * pf_events * res Z :=
    match lines with
    | None => (lc, pf, Err ENOENT)
    | Some ls => let '(pf', r) := probe_lazy_loop sp fname lc ret pf ls in (lc, pf', r)
    end in
  match lcache with
  | [] =>
    (* Matching lazy line pattern *)
    let '(ret, lc) := find_lazy_match_lines_file [] fname pat in
    if ret =? 0 then (lc, pf, Ok 0)
    else if ret <? 0 then (lc, pf, Err (- ret))
    else scan ret lc
  | _ :: _ => scan 0 lcache
  end.

End LineSearch.

(** ** Line range finder *)

(** The fields of [struct line_range] the finder reads and writes. *)
Record line_range := mkLR {
  lr_file : option string; lr_function : option string;
  lr_start : Z; lr_end : Z; lr_offset : Z;
  lr_path : option string; lr_line_list : list Z }.

Definition lr_with_lines (lr : line_range) (l : list Z) : line_range :=
  mkLR (lr_file lr) (lr_function lr) (lr_start lr) (lr_end lr) (lr_offset lr) (lr_path lr) l.

Definition lr_with_path (lr : line_range) (p : option string) : line_range :=
  mkLR (lr_file lr) (lr_function lr) (lr_start lr) (lr_end lr) (lr_offset lr) p (lr_line_list lr).

(** The fields of [struct line_finder]: the CU, the file name and the
    line bounds [lno_s] and [lno_e]. *)
Record line_finder := mkLF {
  lf_cu : die; lf_fname : option string; lf_lno_s : Z; lf_lno_e : Z }.

(** [!(lf->lno_s > lineno || lf->lno_e < lineno)] *)
Definition in_line_range (lf : line_finder) (lineno : Z) : bool :=
  (lf_lno_s lf <=? lineno) && (lineno <=? lf_lno_e lf).

Definition INT_MAX : Z := 2 ^ 31 - 1.

(** [lf->lno_s = lr->offset + lr->start; if (lf->lno_s < 0) lf->lno_s = INT_MAX;]
    in [int] arithmetic, which wraps on overflow as the test assumes. *)
Definition line_bound (offset rel : Z) : Z :=
  let v := int_of_Z (offset + rel) in if v <? 0 then INT_MAX else v.

Section LineRange.

Variable access : string -> Z.

(** symbol_conf.source_prefix *)
Variable source_prefix : option string.

Variable dwarf_decl_file : die -> option string.
Variable dwarf_func_inline : die -> bool.
Variable dwarf_func_inline_instances : die -> list die.

(** dwarf_getsrclines and dwarf_getsrcfiles/dwarf_filesrc of a CU. *)
Variable cu_srclines : die -> option (list dwarf_line).
Variable cu_srcfiles : die -> option (list string).

(** static int line_range_add_line(const char *src, unsigned int lineno,
    struct line_range *lr) *)
Definition line_range_add_line (src : option string) (lineno : Z) (lr : line_range)
  : res Z * line_range :=
  let add (lr : line_range) : res Z * line_range :=
    let '(r, l) := line_list__add_line (lr_line_list lr) lineno in
    (Ok r, lr_with_lines lr l) in
  match lr_path lr with
  | Some _ => add lr
  | None =>
    (* Copy real path *)
    match src with
    | None =>
      (* get_real_path(NULL, ...): access(NULL, R_OK) fails with EFAULT;
         with a prefix, strlen(NULL) faults *)
      match source_prefix with None => (Err EFAULT, lr) | Some _ => (Fault, lr) end
    | Some s =>
      match get_real_path access source_prefix s with
      | Some (Ok p) => add (lr_with_path lr (Some p))
      | Some (Err e) => (Err e, lr)
      | Some Fault | None => (Fault, lr)
      end
    end
  end.

(** dwarf_getfuncs(&lf->cu_die, line_range_funcdecl_cb, &param, 0), with
    [param.retval] threaded through the subprograms. *)
Fixpoint funcdecl_lines_loop (lf : line_finder) (ret : Z) (sps : list die) (lr : line_range)
  : res Z * line_range :=
  match sps with
  | [] => (Ok ret, lr)
  | sp :: rest =>
    let src := dwarf_decl_file sp in
    match (match src with Some _ => tail_match src (lf_fname lf) | None => Some true end) with
    | None => (Fault, lr)
    | Some false => funcdecl_lines_loop lf ret rest lr
    | Some true =>
      match dwarf_decl_line sp with
      | None => funcdecl_lines_loop lf ret rest lr
      | Some lineno =>
        if negb (in_line_range lf lineno) then funcdecl_lines_loop lf ret rest lr
        else
          match line_range_add_line src lineno lr with
          | (Ok r, lr') => funcdecl_lines_loop lf r rest lr'
          | res' => res'                              (* DWARF_CB_ABORT *)
          end
      end
    end
  end.

(** static int find_line_range_func_decl_lines(struct line_finder *lf) *)
Definition find_line_range_func_decl_lines (lf : line_finder) (lr : line_range)
  : res Z * line_range :=
  funcdecl_lines_loop lf 0 (cu_subprograms (lf_cu lf)) lr.

(** The loop [for (i = 0; i < nlines; i++)] of find_line_range_by_line. *)
Fixpoint line_range_lines_loop (sp : option die) (lf : line_finder) (ret : Z)
    (lines : list dwarf_line) (lr : line_range) : res Z * line_range :=
  match lines with
  | [] => (Ok ret, lr)
  | line :: rest =>
    match ln_lineno line with
    | None => line_range_lines_loop sp lf ret rest lr
    | Some lineno =>
      if negb (in_line_range lf lineno) then line_range_lines_loop sp lf ret rest lr
      else if negb (match sp with
                    | None => true
                    | Some _ =>
                      match ln_addr line with
                      | None => false
                      | Some addr => in_probe_scope sp addr
                      end
                    end)
      then line_range_lines_loop sp lf ret rest lr
      else
        match tail_match (ln_src line) (lf_fname lf) with
        | None => (Fault, lr)
        | Some false => line_range_lines_loop sp lf ret rest lr
        | Some true =>
          match line_range_add_line (ln_src line) lineno lr with
          | (Ok r, lr') => line_range_lines_loop sp lf r rest lr'
          | res' => res'
          end
        end
    end
  end.

(** static int find_line_range_by_line(Dwarf_Die *sp_die, struct line_finder *lf):
    the result (1 when lines were found, which sets [lf->found]) and
    [*lf->lr]. *)
Definition find_line_range_by_line (sp : option die) (lf : line_finder) (lr : line_range)
  : res Z * line_range :=
  let lr0 := lr_with_lines lr [] in
  match cu_srclines (lf_cu lf) with
  | None => (Err ENOENT, lr0)
  | Some lines =>
    match line_range_lines_loop sp lf 0 lines lr0 with
    | (Ok ret, lr1) =>
      (* Dwarf lines doesn't include function declarations *)
      let '(ret2, lr2) :=
        match sp with
        | Some s =>
          match dwarf_decl_file s, dwarf_decl_line s with
          | Some src, Some lineno =>
            if in_line_range lf lineno then line_range_add_line (Some src) lineno lr1
            else (Ok ret, lr1)
          | _, _ => (Ok ret, lr1)
          end
        | None => find_line_range_func_decl_lines lf lr1
        end in
      (* Update status *)
      match ret2 with
      | Ok _ =>
        match lr_line_list lr2 with
        | [] => (Ok 0, lr2)                  (* Lines are not found *)
        | _ :: _ => (Ok 1, lr2)
        end
      | Err e => (Err e, lr_with_path lr2 None)
      | Fault => (Fault, lr2)
      end
    | res' => res'
    end
  end.

(** find_line_range_by_func: dwarf_getfuncs with line_range_search_cb,
    which acts on the first subprogram named [lr->function] and aborts;
    the updated [*lf] and the result with [*lr]. *)
Definition find_line_range_by_func (func : string) (lf : line_finder) (lr : line_range)
  : line_finder * (res Z * line_range) :=
  match find (fun sp => negb (die_compare_name sp func)) (cu_subprograms (lf_cu lf)) with
  | None => (lf, (Ok 0, lr))
  | Some sp =>
    let offset := match dwarf_decl_line sp with Some l => l | None => lr_offset lr end in
    let lno_s := line_bound offset (lr_start lr) in
    let lno_e := line_bound offset (lr_end lr) in
    let lf' := mkLF (lf_cu lf) (dwarf_decl_file sp) lno_s lno_e in
    let lr' := mkLR (lr_file lr) (lr_function lr) lno_s lno_e offset
                    (lr_path lr) (lr_line_list lr) in
    if dwarf_func_inline sp then
      (* line_range_inline_cb on the first instance only *)
      match dwarf_func_inline_instances sp with
      | [] => (lf', (Ok 0, lr'))
      | inst :: _ => (lf', find_line_range_by_line (Some inst) lf' lr')
      end
    else (lf', find_line_range_by_line (Some sp) lf' lr')
  end.

(** The loop [while (!lf.found && ret >= 0)] of find_line_range over the
    CUs dwarf_nextcu walks, [off] being the position of the next one; a
    [None] CU is one whose DIE dwarf_offdie fails to read.  The result
    is [None] when the loop has not ended within [fuel] turns. *)
Fixpoint find_line_range_loop (cus : list (option die)) (fuel : nat) (off : nat)
    (found : bool) (ret : res Z) (lr : line_range) : option (res Z * bool * line_range) :=
  match fuel with
  | O => None
  | S fuel' =>
    if found || match ret with Ok _ => false | _ => true end then Some (ret, found, lr)
    else
      match nth_error cus off with
      | None => Some (ret, found, lr)                       (* break *)
      | Some None => find_line_range_loop cus fuel' off found ret lr   (* continue *)
      | Some (Some cu) =>
        (* Check if target file is included. *)
        let fname := match lr_file lr with
                     | Some f => cu_find_realpath (cu_srcfiles cu) (Some f)
                     | None => None
                     end in
        let run : res Z * line_range :=
          match lr_file lr, fname with
          | Some _, None => (ret, lr)
          | _, _ =>
            match lr_function lr with
            | Some func => snd (find_line_range_by_func func (mkLF cu fname 0 0) lr)
            | None => find_line_range_by_line None (mkLF cu fname (lr_start lr) (lr_end lr)) lr
            end
          end in
        let found' := match fst run with Ok r => found || (r =? 1) | _ => found end in
        find_line_range_loop cus fuel' (S off) found' (fst run) (snd run)
      end
  end.

(** int find_line_range(int fd, struct line_range *lr):
    [(ret < 0) ? ret : lf.found] and [*lr]. *)
Definition find_line_range (cus : list (option die)) (fuel : nat) (lr : line_range)
  : option (res Z * line_range) :=
  match find_line_range_loop cus fuel 0 false (Ok 0) lr with
  | None => None
  | Some (ret, found, lr') =>
    Some (match ret with Ok _ => Ok (if found then 1 else 0) | _ => ret end, lr')
  end.

End LineRange.

(** ** Reference orders and filters *)

(** The DIEs below [d] (not [d] itself) in depth-first pre-order. *)
Fixpoint die_preorder (d : die) : list die :=
  match d with Die _ _ ch => flat_map (fun c => c :: die_preorder c) ch end.

(** The addresses find_probe_point_by_line is expected to probe: those of
    the line entries numbered [lno] whose file matches [fname]. *)
Definition probe_line_addrs (lno : Z) (fname : option string) (lines : list dwarf_line)
  : list Z :=
  flat_map (fun l =>
    match ln_lineno l, tail_match (ln_src l) fname, ln_addr l with
    | Some n, Some true, Some a => if n =? lno then [a] else []
    | _, _, _ => []
    end) lines.

(** The addresses find_probe_point_lazy is expected to probe: those of
    the line entries whose number is cached, whose file matches [fname]
    and which pass the address filtering. *)
Definition lazy_line_addrs (sp : option die) (fname : option string) (lcache : list Z)
    (lines : list dwarf_line) : list Z :=
  flat_map (fun l =>
    match ln_lineno l, tail_match (ln_src l) fname, ln_addr l with
    | Some n, Some true, Some a =>
        if line_list__has_line lcache n && in_probe_scope sp a then [a] else []
    | _, _, _ => []
    end) lines.

(** ** Reading of the spec: matching at path-component granularity *)

(** [s] is a tail of [t] cut at a component boundary: the part of [t]
    before it is empty, ends in ['/'], or [s] itself starts with ['/']. *)
Definition comp_suffix (s t : list Z) : Prop :=
  exists p, t = p ++ s /\
    (p = [] \/ (exists q, p = q ++ [47]) \/ (exists r, s = 47 :: r)).

Definition path_tail_match (s1 s2 : string) : Prop :=
  comp_suffix (cchars s1) (cchars s2) \/ comp_suffix (cchars s2) (cchars s1).

(** ** Sample debug information *)

Definition die_named (t : dw_tag) (name : string) : die :=
  Die (mkAttrs t (Some name) [] None None None None None None None) None [].

Definition sample_schedule : die := die_named DW_TAG_subprogram "schedule".

Definition sample_struct3 : die :=
  Die (mkAttrs DW_TAG_structure_type (Some "rgb"%string) [] None None (Some 3) None None None None)
      None [].

Definition sample_var3 : die :=
  Die (no_attrs DW_TAG_variable) (Some sample_struct3) [].

(** A variable of a structure type [2^28] bytes wide. *)
Definition sample_struct_huge : die :=
  Die (mkAttrs DW_TAG_structure_type (Some "huge"%string) [] None None (Some (2 ^ 28)) None None None None)
      None [].

Definition sample_var_huge : die :=
  Die (no_attrs DW_TAG_variable) (Some sample_struct_huge) [].

Definition DW_OP_piece : Z := 147.

Definition sample_int : die :=
  Die (mkAttrs DW_TAG_base_type (Some "int"%string) [] None None (Some 4)
               (Some DW_ATE_signed) None None None) None [].

(** [int arr[2]] held in register 0 ([DW_OP_reg0 DW_OP_piece 8]). *)
Definition sample_int_array : die :=
  Die (no_attrs DW_TAG_array_type) (Some sample_int) [].

Definition sample_reg_array_var : die :=
  Die (mkAttrs DW_TAG_variable (Some "arr"%string) [] None None None None
               (Some (LocExpr [mkOp DW_OP_reg0 0 0; mkOp DW_OP_piece 8 0])) None None)
      (Some sample_int_array) [].

(** [struct pair { int a; }] held in register 0. *)
Definition sample_pair : die :=
  Die (mkAttrs DW_TAG_structure_type (Some "pair"%string) [] None None (Some 4) None None None None)
      None
      [Die (mkAttrs DW_TAG_member (Some "a"%string) [] None None None None None None
                    (Some (MemberConst 0))) (Some sample_int) []].

Definition sample_reg_struct_var : die :=
  Die (mkAttrs DW_TAG_variable (Some "p"%string) [] None None None None
               (Some (LocExpr [mkOp DW_OP_reg0 0 0])) None None)
      (Some sample_pair) [].

Definition sample_regs (r : Z) : option string :=
  if r =? 0 then Some "%ax"%string else if r =? 6 then Some "%bp"%string else None.

(** ** Reading of the spec: the lines of a source file *)

(** The lines of a file: the pieces between newlines, the last one being
    the (possibly empty) text after the last newline. *)
Fixpoint split_lines (l : list ascii) : list (list ascii) :=
  match l with
  | [] => [[]]
  | c :: r =>
      if Ascii.eqb c NL then [] :: split_lines r
      else match split_lines r with
           | [] => [[c]]
           | x :: xs => (c :: x) :: xs
           end
  end.

(** The numbers, from [first] on, of the lines [m] accepts. *)
Fixpoint matching_lines (m : string -> string -> bool) (pat : string)
    (lines : list (list ascii)) (first : Z) : list Z :=
  match lines with
  | [] => []
  | x :: xs =>
      (if m (string_of_list_ascii x) pat then [first] else [])
        ++ matching_lines m pat xs (first + 1)
  end.

Definition attach_first (pre : list ascii) (lines : list (list ascii)) : list (list ascii) :=
  match lines with
  | [] => [pre]
  | x :: xs => (pre ++ x) :: xs
  end.

(** A CU with [foo], declared at line 10, spanning [0x1000, 0x1100)
    with its entry at 0x1000, and the line entry for line 11 at 0x1000. *)
Definition sample_foo : die :=
  Die (mkAttrs DW_TAG_subprogram (Some "foo"%string) [(4096, 4352)] (Some 4096) (Some 10)
               None None None None None) None [].

Definition sample_cu : die := Die (no_attrs DW_TAG_other) None [sample_foo].

Definition sample_entry_line : dwarf_line := mkLine (Some 4096) (Some 11) (Some "foo.c"%string).

(** Every candidate address converts successfully. *)
Definition fills_ok (fill_probe_point : Z -> res unit * kprobe_trace_event)
    (addrs : list Z) : Prop :=
  Forall (fun a => fst (fill_probe_point a) = Ok tt) addrs.

Definition sample_fill (addr : Z) : res unit * kprobe_trace_event :=
  (Ok tt, mkTev (Some "schedule"%string) (addr - 4096) []).

(** ** Further sample inputs and predicates *)
Definition sample_const_int : die := Die (no_attrs DW_TAG_const_type) (Some sample_int) [].

(** [ch'] keeps the frames of [chain] before its current (last) one and
    has at least as many frames. *)
Definition keeps_outer_frames (chain ch' : list Z) : Prop :=
  (List.length chain <= List.length ch')%nat /\ exists ext, ch' = removelast chain ++ ext.

Definition sample_reg_loc_var (ops : list Dwarf_Op) : die :=
  Die (mkAttrs DW_TAG_variable (Some "v"%string) [] None None None None
               (Some (LocExpr ops)) None None) (Some sample_int) [].

Definition sample_pair_ptr : die := Die (no_attrs DW_TAG_pointer_type) (Some sample_pair) [].

Definition sample_ptr_var : die :=
  Die (mkAttrs DW_TAG_variable (Some "pp"%string) [] None None None None
               (Some (LocExpr [mkOp (DW_OP_breg0 + 6) (word_of_Z (-8)) 0])) None None)
      (Some sample_pair_ptr) [].

Definition sample_scope_sp : die :=
  Die (mkAttrs DW_TAG_subprogram (Some "f"%string) [] None None None None None None None) None
      [sample_reg_loc_var [mkOp (DW_OP_breg0 + 6) (word_of_Z (-8)) 0]].

Definition sample_lines : list dwarf_line :=
  [mkLine (Some 4096) (Some 10) (Some "/src/kernel/foo.c"%string);
   mkLine (Some 4100) (Some 11) (Some "/src/kernel/foo.c"%string);
   mkLine (Some 8192) (Some 10) (Some "/src/kernel/bar.c"%string);
   mkLine (Some 4120) (Some 10) (Some "/src/kernel/foo.c"%string)].

(** The fields of [struct line_range] the finder leaves as they were in [lr0]. *)
Definition lr_fields_kept (lr0 lr : line_range) : Prop :=
  lr_file lr = lr_file lr0 /\ lr_function lr = lr_function lr0 /\
  lr_start lr = lr_start lr0 /\ lr_end lr = lr_end lr0 /\ lr_offset lr = lr_offset lr0.

(** The line list is ascending without duplicates, within the bounds of
    [lf], and a non-empty list comes with its source path. *)
Definition lr_lines_inv (lf : line_finder) (lr : line_range) : Prop :=
  StronglySorted Z.lt (lr_line_list lr) /\
  Forall (fun x => lf_lno_s lf <= x <= lf_lno_e lf) (lr_line_list lr) /\
  (lr_line_list lr <> [] -> lr_path lr <> None).

(** ** Lemmas on C strings *)

Definition cbyte (x : Z) : Prop := 0 < x < 256.

Lemma uchar_range : forall c, 0 <= uchar c < 256.
Proof.
  intro c. unfold uchar. pose proof (nat_ascii_bounded c). lia.
Qed.

Lemma cchars_bytes : forall s, Forall cbyte (cchars s).
Proof.
  induction s as [|c r IH]; simpl; [constructor|].
  destruct (Z.eqb_spec (uchar c) 0); [constructor|].
  constructor; [|exact IH]. pose proof (uchar_range c). unfold cbyte. lia.
Qed.

Lemma strcmp_l_zero : forall l1 l2, Forall cbyte l1 -> Forall cbyte l2 ->
  (strcmp_l l1 l2 = 0 <-> l1 = l2).
Proof.
  induction l1 as [|a r1 IH]; intros [|b r2] H1 H2; simpl.
  - tauto.
  - inversion H2; subst. unfold cbyte in *. split; [lia|discriminate].
  - inversion H1; subst. unfold cbyte in *. split; [lia|discriminate].
  - inversion H1; inversion H2; subst.
    destruct (Z.eqb_spec a b) as [->|Hne].
    + rewrite IH by assumption. split; [intros ->; reflexivity|intros [=]; assumption].
    + split; [lia|intros [=]; contradiction].
Qed.

Lemma schar_inj : forall a b, cbyte a -> cbyte b -> schar a - schar b = 0 -> a = b.
Proof.
  unfold cbyte, schar. intros a b Ha Hb.
  destruct (Z.ltb_spec a 128), (Z.ltb_spec b 128); lia.
Qed.

Lemma strtailcmp_loop_zero : forall r1 r2, Forall cbyte r1 -> Forall cbyte r2 ->
  (strtailcmp_loop r1 r2 = 0 <->
   (exists p, r2 = r1 ++ p) \/ (exists p, r1 = r2 ++ p)).
Proof.
  induction r1 as [|a r1 IH]; intros r2 H1 H2; simpl.
  - split; [intros _; left; exists r2; reflexivity|reflexivity].
  - destruct r2 as [|b r2].
    + split; [intros _; right; exists (a :: r1); reflexivity|reflexivity].
    + inversion H1; inversion H2; subst.
      destruct (Z.eqb_spec a b) as [->|Hne].
      * rewrite IH by assumption. split.
        -- intros [[p Hp]|[p Hp]]; [left|right]; exists p; simpl; congruence.
        -- intros [[p Hp]|[p Hp]]; [left|right]; exists p; simpl in Hp; congruence.
      * split.
        -- intro H. exfalso. apply Hne. apply schar_inj; assumption.
        -- intros [[p Hp]|[p Hp]]; simpl in Hp; congruence.
Qed.

Lemma Forall_rev_cbyte : forall l, Forall cbyte l -> Forall cbyte (rev l).
Proof. intros l H. apply Forall_rev. exact H. Qed.

Lemma rev_prefix_suffix : forall (l1 l2 : list Z),
  (exists p, rev l2 = rev l1 ++ p) <-> (exists p, l2 = p ++ l1).
Proof.
  intros l1 l2. split.
  - intros [p Hp]. exists (rev p).
    rewrite <- (rev_involutive l2), Hp, rev_app_distr, rev_involutive. reflexivity.
  - intros [p Hp]. exists (rev p). rewrite Hp, rev_app_distr. reflexivity.
Qed.

(** ** C4: die_compare_name *)

(** C4 (corrected). die_compare_name returns the [strcmp] result as a
    [bool]: it is [false] exactly when the DIE's name equals the
    expected string, and [true] when the names differ or the DIE has no
    name (callers test [die_compare_name(...) == 0] for a match). *)
Theorem die_compare_name_false_iff_same_name : forall d tname,
  (dwarf_diename d = None -> die_compare_name d tname = true) /\
  (forall name, dwarf_diename d = Some name ->
     (die_compare_name d tname = false <-> cchars name = cchars tname)).
Proof.
  intros d tname. unfold die_compare_name. split.
  - intros ->. reflexivity.
  - intros name ->. unfold strcmp.
    rewrite negb_false_iff, Z.eqb_eq, strcmp_l_zero by apply cchars_bytes.
    split; intros ->; reflexivity.
Qed.

(** C4 counterexample: on a DIE named "schedule", comparing with
    "schedule" returns [false], not [true]. *)
Lemma die_compare_name_equal_is_false :
  dwarf_diename sample_schedule = Some "schedule"%string /\
  die_compare_name sample_schedule "schedule" = false.
Proof. split; reflexivity. Qed.

(** ** C5: strtailcmp *)

(** C5 (corrected). strtailcmp returns 0 exactly when one C string is a
    (byte-level) suffix of the other; the match may split a path
    component. *)
Theorem strtailcmp_zero_iff_suffix : forall s1 s2,
  strtailcmp s1 s2 = 0 <->
  (exists p, cchars s2 = p ++ cchars s1) \/ (exists p, cchars s1 = p ++ cchars s2).
Proof.
  intros s1 s2. unfold strtailcmp.
  rewrite strtailcmp_loop_zero by (apply Forall_rev_cbyte, cchars_bytes).
  rewrite !rev_prefix_suffix. reflexivity.
Qed.

(** C5 counterexample: "bar.c" and "foobar.c" match (0), although
    "bar.c" is not a tail of "foobar.c" at a component boundary. *)
Lemma strtailcmp_splits_component :
  strtailcmp "bar.c" "foobar.c" = 0 /\ ~ path_tail_match "bar.c" "foobar.c".
Proof.
  split; [reflexivity|].
  unfold path_tail_match, comp_suffix. simpl.
  intros [[p [Hp Hc]]|[p [Hp Hc]]].
  - assert (Hl : List.length p = 3%nat).
    { apply (f_equal (@List.length Z)) in Hp. rewrite length_app in Hp.
      simpl in Hp. lia. }
    destruct p as [|x1 [|x2 [|x3 [|x4 p]]]]; simpl in Hl; try discriminate.
    injection Hp as <- <- <-.
    destruct Hc as [Hc|[[q Hq]|[r Hr]]]; try discriminate.
    apply (f_equal (@rev Z)) in Hq. rewrite rev_app_distr in Hq. discriminate.
  - apply (f_equal (@List.length Z)) in Hp. rewrite length_app in Hp.
    simpl in Hp. lia.
Qed.

(** ** C6: the line list *)

Section SortedLemmas.
Context {A : Type} (R : A -> A -> Prop).

Lemma StronglySorted_app : forall l1 l2,
  StronglySorted R l1 -> StronglySorted R l2 ->
  (forall x y, In x l1 -> In y l2 -> R x y) -> StronglySorted R (l1 ++ l2).
Proof.
  induction l1 as [|a l1 IH]; intros l2 H1 H2 H; simpl; [exact H2|].
  apply StronglySorted_inv in H1 as [H1 Ha].
  constructor.
  - apply IH; [exact H1|exact H2|]. intros x y Hx Hy. apply H; simpl; auto.
  - apply Forall_app. split; [exact Ha|].
    apply Forall_forall. intros y Hy. apply H; simpl; auto.
Qed.

End SortedLemmas.

Lemma StronglySorted_rev {A : Type} (R : A -> A -> Prop) : forall l,
  StronglySorted R l -> StronglySorted (fun a b => R b a) (rev l).
Proof.
  induction l as [|a l IH]; intros H; simpl; [constructor|].
  apply StronglySorted_inv in H as [H Ha].
  apply (StronglySorted_app (fun a b => R b a)).
  - apply IH, H.
  - repeat constructor.
  - intros x y Hx [<-|[]]. rewrite <- in_rev in Hx.
    rewrite Forall_forall in Ha. apply Ha, Hx.
Qed.

Lemma StronglySorted_lt_rev : forall l,
  StronglySorted (fun a b => b < a) (rev l) -> StronglySorted Z.lt l.
Proof.
  intros l H. rewrite <- (rev_involutive l).
  exact (StronglySorted_rev (fun a b => b < a) (rev l) H).
Qed.

Lemma line_list_rsearch_spec : forall rl n,
  StronglySorted (fun a b => b < a) rl ->
  match line_list_rsearch rl n with
  | None => In n rl
  | Some rl' => StronglySorted (fun a b => b < a) rl' /\
                (forall x, In x rl' <-> x = n \/ In x rl) /\ ~ In n rl
  end.
Proof.
  induction rl as [|ln rest IH]; intros n H; simpl.
  - split; [repeat constructor|]. split; [intro x; simpl; intuition congruence|tauto].
  - apply StronglySorted_inv in H as [Hs Hf]. rewrite Forall_forall in Hf.
    destruct (Z.ltb_spec ln n).
    + split; [|split].
      * constructor; [constructor; [exact Hs|rewrite Forall_forall; exact Hf]|].
        constructor; [lia|]. rewrite Forall_forall. intros x Hx.
        specialize (Hf x Hx). lia.
      * intro x. simpl. intuition congruence.
      * intros [->|Hin]; [lia|]. specialize (Hf n Hin). lia.
    + destruct (Z.eqb_spec ln n) as [->|Hne]; [left; reflexivity|].
      specialize (IH n Hs). destruct (line_list_rsearch rest n) as [rl'|]; simpl.
      * destruct IH as (Hs' & Hin' & Hnot). split; [|split].
        -- constructor; [exact Hs'|]. rewrite Forall_forall. intros x Hx.
           apply Hin' in Hx as [->|Hx]; [lia|apply Hf, Hx].
        -- intro x. simpl. rewrite Hin'. intuition congruence.
        -- intros [->|Hin]; [lia|contradiction].
      * right. exact IH.
Qed.

(** C6. On an ascending, duplicate-free line list, a successful [add n]
    keeps the list ascending and duplicate-free and adds exactly [n]; a
    second [add n] then reports [already_present] (1) and leaves the
    list unchanged. *)
Theorem line_list_add_idempotent : forall l n l',
  StronglySorted Z.lt l ->
  line_list__add_line l n = (0, l') ->
  StronglySorted Z.lt l' /\ (forall x, In x l' <-> x = n \/ In x l) /\
  line_list__add_line l' n = (1, l').
Proof.
  intros l n l' Hs Hadd. unfold line_list__add_line in Hadd.
  pose proof (line_list_rsearch_spec (rev l) n (StronglySorted_rev _ l Hs)) as Hr.
  destruct (line_list_rsearch (rev l) n) as [rl|]; [|discriminate].
  injection Hadd as <-. destruct Hr as (Hs' & Hin & _).
  split; [|split].
  - apply StronglySorted_lt_rev. rewrite rev_involutive. exact Hs'.
  - intro x. rewrite <- in_rev, Hin, <- in_rev. reflexivity.
  - unfold line_list__add_line. rewrite rev_involutive.
    pose proof (line_list_rsearch_spec rl n Hs') as Hr2.
    destruct (line_list_rsearch rl n) as [rl2|].
    + destruct Hr2 as (_ & _ & Hnot). exfalso. apply Hnot, Hin. left; reflexivity.
    + reflexivity.
Qed.

Lemma line_list_add_idempotent_witness :
  StronglySorted Z.lt [1; 3] /\ line_list__add_line [1; 3] 2 = (0, [1; 2; 3]) /\
  (StronglySorted Z.lt [1; 2; 3] /\ (forall x, In x [1; 2; 3] <-> x = 2 \/ In x [1; 3]) /\
   line_list__add_line [1; 2; 3] 2 = (1, [1; 2; 3])).
Proof.
  assert (Hs : StronglySorted Z.lt [1; 3]) by (repeat constructor; lia).
  split; [exact Hs|]. split; [reflexivity|].
  apply (line_list_add_idempotent [1; 3] 2 [1; 2; 3]); [exact Hs|reflexivity].
Defined.

(** ** C1: DW_OP_fbreg *)

Lemma word_of_Z_add : forall a b, word_of_Z (word_of_Z a + word_of_Z b) = word_of_Z (a + b).
Proof. intros a b. unfold word_of_Z. rewrite <- Z.add_mod by lia. reflexivity. Qed.

Lemma long_of_word_of_Z : forall z, - 2 ^ 63 <= z < 2 ^ 63 -> long_of_word (word_of_Z z) = z.
Proof.
  intros z Hz. unfold long_of_word, word_of_Z.
  destruct (Z_lt_le_dec z 0) as [Hneg|Hpos].
  - assert (Hm : z mod 2 ^ 64 = z + 2 ^ 64).
    { rewrite <- (Z.mod_small (z + 2 ^ 64) (2 ^ 64)) by lia.
      rewrite <- Z.add_mod_idemp_r, Z.mod_same by lia. rewrite Z.add_0_r. reflexivity. }
    rewrite Hm. destruct (Z.ltb_spec (z + 2 ^ 64) (2 ^ 63)); lia.
  - rewrite Z.mod_small by lia. destruct (Z.ltb_spec z (2 ^ 63)); lia.
Qed.

(** C1. A variable whose location at the probe address starts with
    [DW_OP_fbreg n]: when the frame base is [DW_OP_bregN m] (with a name
    for register [N]), the value is register [N] with one indirection
    frame of offset [n + m]; with no frame base, [-ENOTSUP] and no value.
    Operands are [Dwarf_Word]s holding the signed [n] and [m]. *)
Theorem fbreg_location_converted : forall get_arch_regstr vr pf la op0 rest n,
  a_location (die_attrs_of vr) = Some la ->
  dwarf_getlocation_addr la (pf_addr pf) = Some (op0 :: rest) ->
  atom op0 = DW_OP_fbreg -> number op0 = word_of_Z n ->
  (forall fb0 N m regs,
     pf_fb_ops pf = Some fb0 ->
     0 <= N <= 31 -> atom fb0 = DW_OP_breg0 + N -> number fb0 = word_of_Z m ->
     get_arch_regstr N = Some regs ->
     - 2 ^ 63 <= n + m < 2 ^ 63 ->
     convert_variable_location get_arch_regstr vr pf = Ok (regs, [n + m])) /\
  (pf_fb_ops pf = None ->
     convert_variable_location get_arch_regstr vr pf = Err ENOTSUP).
Proof.
  intros get_arch_regstr vr pf la op0 rest n Hla Hloc Hat Hnum.
  unfold convert_variable_location. rewrite Hla. cbn [option_map]. rewrite Hloc, Hat.
  change (DW_OP_fbreg =? DW_OP_addr) with false. rewrite Z.eqb_refl. cbv iota beta.
  split.
  - intros fb0 N m regs Hfb HN Hfat Hfnum Hreg Hr. rewrite Hfb, Hfat.
    replace ((DW_OP_breg0 <=? DW_OP_breg0 + N) && (DW_OP_breg0 + N <=? DW_OP_breg31))
      with true by (unfold DW_OP_breg0, DW_OP_breg31; symmetry;
                    apply andb_true_iff; split; apply Z.leb_le; lia).
    replace (DW_OP_breg0 + N - DW_OP_breg0) with N by lia.
    rewrite Hnum, Hfnum, word_of_Z_add, long_of_word_of_Z, Hreg by exact Hr.
    reflexivity.
  - intros Hfb. rewrite Hfb. reflexivity.
Qed.

Lemma fbreg_location_converted_witness :
  let vr := Die (mkAttrs DW_TAG_variable (Some "cpu"%string) [] None None None None
                   (Some (LocExpr [mkOp DW_OP_fbreg (word_of_Z (-20)) 0])) None None)
                None [] in
  let regs := fun r => if r =? 6 then Some "%bp"%string else None in
  convert_variable_location regs vr (mkPF 4096 (Some (mkOp (DW_OP_breg0 + 6) (word_of_Z 16) 0)))
    = Ok ("%bp"%string, [-4]) /\
  convert_variable_location regs vr (mkPF 4096 None) = Err ENOTSUP.
Proof.
  intros vr regs. split.
  - apply (proj1 (fbreg_location_converted regs vr
             (mkPF 4096 (Some (mkOp (DW_OP_breg0 + 6) (word_of_Z 16) 0)))
             (LocExpr [mkOp DW_OP_fbreg (word_of_Z (-20)) 0])
             (mkOp DW_OP_fbreg (word_of_Z (-20)) 0) [] (-20)
             eq_refl eq_refl eq_refl eq_refl)
           (mkOp (DW_OP_breg0 + 6) (word_of_Z 16) 0) 6 16 "%bp"%string);
      try reflexivity; lia.
  - apply (proj2 (fbreg_location_converted regs vr (mkPF 4096 None)
             (LocExpr [mkOp DW_OP_fbreg (word_of_Z (-20)) 0])
             (mkOp DW_OP_fbreg (word_of_Z (-20)) 0) [] (-20)
             eq_refl eq_refl eq_refl eq_refl)).
    reflexivity.
Defined.

(** ** C2: probe capacity *)

Lemma list_set_app_length : forall {A} (l1 l2 : list A) x,
  list_set (l1 ++ l2) (List.length l1) x = l1 ++ list_set l2 0 x.
Proof. induction l1 as [|y l1 IH]; intros l2 x; simpl; [reflexivity|now rewrite IH]. Qed.

Section Capacity.
Variable fill_probe_point : Z -> res unit * kprobe_trace_event.

Lemma find_probe_points_ok_prefix : forall cands done k pf,
  fills_ok fill_probe_point cands -> (List.length cands <= k)%nat ->
  pf_ntevs pf = List.length done -> pf_max_tevs pf = (List.length done + k)%nat ->
  pf_tevs pf = done ++ repeat tev_empty k ->
  exists pf',
    (forall rest, find_probe_points fill_probe_point pf (cands ++ rest)
                  = find_probe_points fill_probe_point pf' rest) /\
    pf_ntevs pf' = (List.length done + List.length cands)%nat /\
    pf_max_tevs pf' = pf_max_tevs pf /\
    pf_tevs pf' = done ++ map (fun a => snd (fill_probe_point a)) cands
                       ++ repeat tev_empty (k - List.length cands).
Proof.
  induction cands as [|c cs IH]; intros done k pf Hok Hk Hn Hm Ht.
  - exists pf. split; [reflexivity|]. rewrite Nat.add_0_r, Nat.sub_0_r.
    repeat split; assumption.
  - inversion Hok as [|? ? Hc Hcs]; subst.
    destruct k as [|k]; [simpl in Hk; lia|].
    destruct (fill_probe_point c) as [ret tev] eqn:Hf. simpl in Hc. subst ret.
    set (pf1 := mkPFE (S (pf_ntevs pf)) (pf_max_tevs pf)
                      (list_set (pf_tevs pf) (pf_ntevs pf) tev)).
    assert (Hstep : forall rest, find_probe_points fill_probe_point pf ((c :: cs) ++ rest)
                    = find_probe_points fill_probe_point pf1 (cs ++ rest)).
    { intro rest. cbn [app find_probe_points]. unfold convert_probe_point.
      destruct (Nat.eqb_spec (pf_ntevs pf) (pf_max_tevs pf)) as [E|_];
        [rewrite Hn, Hm in E; lia|].
      rewrite Hf. reflexivity. }
    destruct (IH (done ++ [tev]) k pf1 Hcs) as (pf' & Hrun & Hn' & Hm' & Ht').
    + simpl in Hk. lia.
    + simpl. rewrite Hn, length_app. simpl. lia.
    + simpl. rewrite Hm, length_app. simpl. lia.
    + simpl. rewrite Ht, Hn, list_set_app_length, <- app_assoc. reflexivity.
    + exists pf'. split; [intro rest; rewrite Hstep; apply Hrun|].
      split; [rewrite Hn', length_app; simpl; lia|].
      split; [rewrite Hm'; reflexivity|].
      rewrite Ht', <- app_assoc. simpl. rewrite Hf. reflexivity.
Qed.

End Capacity.

(** C2. With [max_tevs = N], once [N] probe points have been emitted
    the next candidate fails with [-ERANGE] (OutOfRange) and the search
    state, including the [N] emitted events, is exactly the one left by
    the [N] emissions. *)
Theorem probe_capacity_overflow : forall fill_probe_point N cands a rest,
  List.length cands = N ->
  Forall (fun c => fst (fill_probe_point c) = Ok tt) cands ->
  let pfN := fst (find_probe_points fill_probe_point (pf_events_init N) cands) in
  pf_ntevs pfN = N /\
  pf_tevs pfN = map (fun c => snd (fill_probe_point c)) cands /\
  find_probe_points fill_probe_point (pf_events_init N) (cands ++ a :: rest)
    = (pfN, Err ERANGE).
Proof.
  intros fill N cands a rest Hlen Hok pfN.
  destruct (find_probe_points_ok_prefix fill cands [] N (pf_events_init N) Hok)
    as (pf' & Hrun & Hn & Hm & Ht); try (simpl; lia); [reflexivity|].
  assert (HpfN : pfN = pf').
  { unfold pfN. rewrite <- (app_nil_r cands), Hrun. reflexivity. }
  rewrite HpfN. simpl in Hn, Hm, Ht. rewrite Hlen, Nat.sub_diag, app_nil_r in Ht.
  split; [rewrite Hn; exact Hlen|]. split; [exact Ht|].
  rewrite Hrun. simpl. unfold convert_probe_point.
  rewrite Hn, Hm, Hlen, Nat.eqb_refl. reflexivity.
Qed.

Lemma probe_capacity_overflow_witness :
  List.length [4096; 4100] = 2%nat /\
  Forall (fun c => fst (sample_fill c) = Ok tt) [4096; 4100] /\
  (let pfN := fst (find_probe_points sample_fill (pf_events_init 2) [4096; 4100]) in
   pf_ntevs pfN = 2%nat /\
   pf_tevs pfN = map (fun c => snd (sample_fill c)) [4096; 4100] /\
   find_probe_points sample_fill (pf_events_init 2) ([4096; 4100] ++ [4104])
     = (pfN, Err ERANGE)).
Proof.
  assert (Hok : Forall (fun c => fst (sample_fill c) = Ok tt) [4096; 4100])
    by (repeat constructor).
  split; [reflexivity|]. split; [exact Hok|].
  exact (probe_capacity_overflow sample_fill 2 [4096; 4100] 4104 [] eq_refl Hok).
Defined.

(** ** C3: type tags *)

Lemma int_of_Z_small : forall z, 0 <= z < 2 ^ 31 -> int_of_Z z = z.
Proof.
  intros z Hz. unfold int_of_Z. rewrite Z.mod_small by lia.
  destruct (Z.ltb_spec z (2 ^ 31)); lia.
Qed.

(** C3 counterexample: a variable of a 3-byte type gets the inferred
    type tag "u24", whose width 24 is not in {8, 16, 32, 64}. *)
Lemma type_tag_width_24 :
  fst (convert_variable_type sample_var3) = Ok (Some "u24"%string) /\
  ~ In 24 [8; 16; 32; 64].
Proof.
  split; [vm_compute; reflexivity|]. simpl. lia.
Qed.

(** C3 (corrected). The type tag inferred from the resolved type of
    byte size [B]: no tag when [B = 0]; otherwise, for [0 < B < 2^28],
    the tag is [s] or [u] followed by [bits = min (8 * B) 64], a multiple
    of 8 between 8 and 64, and a type wider than 64 bits is clamped to 64
    with one informational message instead of failing.  The width is
    the C [int] product [8 * B], which no longer fits an [int] from
    [B = 2^28] on: at [B = 2^28] it wraps to [-2^31], and the tag is
    [u-2147483648] (or [s-2147483648]), with no clamp and no message. *)
Theorem convert_variable_type_tag : forall vr type,
  die_get_real_type vr = Some type ->
  (die_get_byte_size type = 0 -> convert_variable_type vr = (Ok None, [])) /\
  (0 < die_get_byte_size type < 2 ^ 28 ->
   let bits := Z.min (8 * die_get_byte_size type) 64 in
   fst (convert_variable_type vr)
     = Ok (Some (String (if die_is_signed_type type then "s" else "u")%char
                        (string_of_Z bits))) /\
   List.length (snd (convert_variable_type vr))
     = (if 64 <? 8 * die_get_byte_size type then 1%nat else 0%nat) /\
   bits mod 8 = 0 /\ 8 <= bits <= 64) /\
  (die_get_byte_size type = 2 ^ 28 ->
   convert_variable_type vr
     = (Ok (Some (String (if die_is_signed_type type then "s" else "u")%char
                         "-2147483648")), [])).
Proof.
  intros vr type Hty. unfold convert_variable_type. rewrite Hty.
  split; [|split].
  - intros H0. rewrite H0. reflexivity.
  - intros Hb. cbv zeta. set (B := die_get_byte_size type) in *.
    rewrite int_of_Z_small by lia.
    replace (B * 8 =? 0) with false by (symmetry; apply Z.eqb_neq; lia).
    unfold MAX_BASIC_TYPE_BITS.
    destruct (Z.gtb_spec (B * 8) 64) as [Hgt|Hle].
    + replace (Z.min (8 * B) 64) with 64 by lia.
      replace (64 <? 8 * B) with true by (symmetry; apply Z.ltb_lt; lia).
      destruct (die_is_signed_type type); vm_compute; repeat split; discriminate.
    + replace (64 <? 8 * B) with false by (symmetry; apply Z.ltb_ge; lia).
      replace (Z.min (8 * B) 64) with (B * 8) by lia.
      assert (HB : B = 1 \/ B = 2 \/ B = 3 \/ B = 4 \/ B = 5 \/ B = 6 \/ B = 7 \/ B = 8)
        by lia.
      destruct (die_is_signed_type type);
        destruct HB as [->|[->|[->|[->|[->|[->|[->| ->]]]]]]];
        vm_compute; repeat split; discriminate.
  - intros Hw. rewrite Hw. destruct (die_is_signed_type type); vm_compute; reflexivity.
Qed.

Lemma convert_variable_type_tag_witness :
  die_get_real_type sample_var3 = Some sample_struct3 /\
  fst (convert_variable_type sample_var3)
    = Ok (Some (String "u"%char (string_of_Z (Z.min (8 * 3) 64)))) /\
  die_get_real_type sample_var_huge = Some sample_struct_huge /\
  convert_variable_type sample_var_huge = (Ok (Some "u-2147483648"%string), []).
Proof.
  split; [reflexivity|]. split.
  - apply (proj1 (proj2 (convert_variable_type_tag sample_var3 sample_struct3 eq_refl))).
    vm_compute. split; reflexivity.
  - split; [reflexivity|].
    apply (proj2 (proj2 (convert_variable_type_tag sample_var_huge sample_struct_huge eq_refl))).
    vm_compute. reflexivity.
Defined.

(** ** C9: index step on an array held in a register *)

(** C9 (code bug). For [arr[1]] where [int arr[2]] is located in
    register 0 ([DW_OP_reg0]), the location gives no indirection frame
    ([ref] is NULL) and the array branch of convert_variable_fields
    writes [ref->offset] through it: a NULL dereference.  The structure
    branch guards the same situation ([p.a] on a [struct pair] in
    register 0 gives [-ENOTSUP]). *)
Theorem register_array_index_null_ref :
  convert_variable_location sample_regs sample_reg_array_var (mkPF 4096 None)
    = Ok ("%ax"%string, []) /\
  convert_variable sample_regs sample_reg_array_var (mkPF 4096 None)
    (mkPArg "arr" [mkField "[1]" false 1] None) = Fault /\
  convert_variable sample_regs sample_reg_struct_var (mkPF 4096 None)
    (mkPArg "p" [mkField "a" false 0] None) = Err ENOTSUP.
Proof. split; [|split]; vm_compute; reflexivity. Qed.

(** ** C10: the lazy matcher *)

Lemma line_list_add_above : forall head line,
  Forall (fun x => x < line) head -> line_list__add_line head line = (0, head ++ [line]).
Proof.
  intros head line H. unfold line_list__add_line.
  destruct (rev head) as [|ln rest] eqn:Hr.
  - apply (f_equal (@rev Z)) in Hr. rewrite rev_involutive in Hr. subst. reflexivity.
  - assert (Hln : ln < line).
    { rewrite Forall_forall in H. apply H. rewrite in_rev, Hr. left; reflexivity. }
    apply Z.ltb_lt in Hln. cbn [line_list_rsearch]. rewrite Hln. cbv iota beta.
    change (rev (line :: ln :: rest)) with (rev (ln :: rest) ++ [line]).
    rewrite <- Hr, rev_involutive. reflexivity.
Qed.

Lemma split_lines_not_nil : forall l, split_lines l <> [].
Proof.
  destruct l as [|c r]; simpl; [discriminate|].
  destruct (Ascii.eqb c NL); [discriminate|]. destruct (split_lines r); discriminate.
Qed.

Lemma lazy_match_loop_lines : forall m pat p acc line nlines head,
  Forall (fun c => uchar c <> 0) p ->
  Forall (fun x => x < line) head ->
  let ls := attach_first (rev acc) (split_lines p) in
  lazy_match_loop m pat (p ++ [NL]) acc line nlines head
    = (nlines + Z.of_nat (List.length (matching_lines m pat ls line)),
       head ++ matching_lines m pat ls line).
Proof.
  intros m pat. induction p as [|c p IH]; intros acc line nlines head Hp Hh ls.
  - subst ls. simpl. rewrite !app_nil_r.
    destruct (m (string_of_list_ascii (rev acc)) pat); simpl.
    + rewrite line_list_add_above by exact Hh. simpl. f_equal; lia.
    + rewrite !app_nil_r. f_equal; lia.
  - inversion Hp as [|? ? Hc Hp']; subst. subst ls. simpl.
    destruct (Ascii.eqb c NL) eqn:Hnl.
    + assert (Hh1 : Forall (fun x => x < line + 1) head).
      { rewrite Forall_forall in *. intros x Hx. specialize (Hh x Hx). lia. }
      change (attach_first (rev acc) ([] :: split_lines p))
        with ((rev acc ++ []) :: split_lines p).
      rewrite app_nil_r. cbn [matching_lines].
      assert (Hls : attach_first (rev []) (split_lines p) = split_lines p).
      { destruct (split_lines p) eqn:E; [exfalso; eapply split_lines_not_nil; exact E|].
        reflexivity. }
      destruct (m (string_of_list_ascii (rev acc)) pat).
      * rewrite line_list_add_above by exact Hh. cbn [snd].
        rewrite IH; [|exact Hp'|].
        -- rewrite Hls, <- app_assoc. simpl. f_equal; lia.
        -- apply Forall_app. split; [exact Hh1|]. repeat constructor. lia.
      * rewrite IH by assumption. rewrite Hls. reflexivity.
    + apply Z.eqb_neq in Hc. rewrite Hc. rewrite IH by assumption.
      simpl. destruct (split_lines p) as [|x xs] eqn:E;
        [exfalso; eapply split_lines_not_nil; exact E|].
      simpl. rewrite <- app_assoc. reflexivity.
Qed.

Lemma removelast_attach_first_cons : forall pre x ls,
  ls <> [] -> removelast (attach_first pre (x :: ls)) = (pre ++ x) :: removelast ls.
Proof.
  intros pre x ls H. simpl. destruct ls; [contradiction|]. reflexivity.
Qed.

(** Up to a NUL byte the loop matches the lines ended by a newline; the
    line the NUL sits in, and everything after it, is never tested. *)
Lemma lazy_match_loop_nul : forall m pat p q acc line nlines head,
  Forall (fun c => uchar c <> 0) p ->
  Forall (fun x => x < line) head ->
  let ls := removelast (attach_first (rev acc) (split_lines p)) in
  lazy_match_loop m pat (p ++ "000"%char :: q) acc line nlines head
    = (nlines + Z.of_nat (List.length (matching_lines m pat ls line)),
       head ++ matching_lines m pat ls line).
Proof.
  intros m pat. induction p as [|c p IH]; intros q acc line nlines head Hp Hh ls.
  - subst ls. simpl. rewrite app_nil_r. f_equal; lia.
  - inversion Hp as [|? ? Hc Hp']; subst. subst ls. simpl.
    destruct (Ascii.eqb c NL) eqn:Hnl.
    + assert (Hh1 : Forall (fun x => x < line + 1) head).
      { rewrite Forall_forall in *. intros x Hx. specialize (Hh x Hx). lia. }
      change (attach_first (rev acc) ([] :: split_lines p))
        with ((rev acc ++ []) :: split_lines p).
      change ((rev acc ++ []) :: split_lines p)
        with (attach_first (rev acc) ([] :: split_lines p)).
      rewrite removelast_attach_first_cons by apply split_lines_not_nil.
      rewrite app_nil_r. cbn [matching_lines].
      assert (Hls : attach_first (rev []) (split_lines p) = split_lines p).
      { destruct (split_lines p) eqn:E; [exfalso; eapply split_lines_not_nil; exact E|].
        reflexivity. }
      destruct (m (string_of_list_ascii (rev acc)) pat).
      * rewrite line_list_add_above by exact Hh. cbn [snd].
        rewrite IH; [|exact Hp'|].
        -- rewrite Hls, <- app_assoc. simpl. f_equal; lia.
        -- apply Forall_app. split; [exact Hh1|]. repeat constructor. lia.
      * rewrite IH by assumption. rewrite Hls. reflexivity.
    + apply Z.eqb_neq in Hc. rewrite Hc. rewrite IH by assumption.
      simpl. destruct (split_lines p) as [|x xs] eqn:E;
        [exfalso; eapply split_lines_not_nil; exact E|].
      simpl. rewrite <- app_assoc. reflexivity.
Qed.

(** C10 counterexample: in the file made of the bytes [b], NUL, newline,
    [a], the unterminated last line [a] matches the pattern [a] exactly,
    yet the matcher stops at the NUL byte and reports no line. *)
Lemma lazy_match_stops_at_nul :
  split_lines (list_ascii_of_string
    (String "b" (String "000" (String "010" (String "a" EmptyString)))))
    = [["b"%char; "000"%char]; ["a"%char]] /\
  String.eqb (string_of_list_ascii ["a"%char]) "a" = true /\
  find_lazy_match_lines String.eqb []
    (String "b" (String "000" (String "010" (String "a" EmptyString)))) "a" = (0, []).
Proof. split; [|split]; vm_compute; reflexivity. Qed.

(** C10 (corrected). find_lazy_match_lines scans the file up to its
    first NUL byte.  For a file with no NUL byte it tests every line, the
    last one included even without a trailing newline, and returns the
    numbers (from 1) of exactly the matching lines, in order, and their
    count.  For a file [pre ++ NUL :: post] with no NUL byte in [pre],
    only the lines of [pre] ended by a newline are tested: the line
    holding the NUL and every later line never are. *)
Theorem lazy_match_all_lines : forall strlazymatch content pat,
  (Forall (fun c => uchar c <> 0) (list_ascii_of_string content) ->
   let ms := matching_lines strlazymatch pat (split_lines (list_ascii_of_string content)) 1 in
   find_lazy_match_lines strlazymatch [] content pat = (Z.of_nat (List.length ms), ms)) /\
  (forall pre post,
   list_ascii_of_string content = pre ++ "000"%char :: post ->
   Forall (fun c => uchar c <> 0) pre ->
   let ms := matching_lines strlazymatch pat (removelast (split_lines pre)) 1 in
   find_lazy_match_lines strlazymatch [] content pat = (Z.of_nat (List.length ms), ms)).
Proof.
  intros m content pat. split.
  - intros Hc ms. unfold find_lazy_match_lines.
    rewrite lazy_match_loop_lines by (assumption || constructor).
    subst ms. simpl.
    destruct (split_lines (list_ascii_of_string content)) eqn:E;
      [exfalso; eapply split_lines_not_nil; exact E|].
    reflexivity.
  - intros pre post Heq Hc ms. unfold find_lazy_match_lines.
    rewrite Heq, <- app_assoc. cbn [app].
    rewrite lazy_match_loop_nul by (assumption || constructor).
    subst ms. simpl.
    destruct (split_lines pre) eqn:E;
      [exfalso; eapply split_lines_not_nil; exact E|].
    reflexivity.
Qed.

Lemma lazy_match_all_lines_witness :
  Forall (fun c => uchar c <> 0) (list_ascii_of_string "a = 1;
b = 2;
a = 3;") /\
  find_lazy_match_lines (fun l p => String.eqb (String.substring 0 1 l) p) []
    "a = 1;
b = 2;
a = 3;" "a" = (2, [1; 3]) /\
  find_lazy_match_lines (fun l p => String.eqb (String.substring 0 1 l) p) []
    (String "a" (String "010" (String "b" (String "000" (String "010" (String "a" EmptyString))))))
    "a" = (1, [1]).
Proof.
  assert (H : Forall (fun c => uchar c <> 0) (list_ascii_of_string "a = 1;
b = 2;
a = 3;")) by (repeat constructor; discriminate).
  split; [exact H|]. split.
  - rewrite (proj1 (lazy_match_all_lines _ _ "a") H). vm_compute. reflexivity.
  - rewrite (proj2 (lazy_match_all_lines _ _ "a") ["a"; "010"; "b"]%char ["010"; "a"]%char);
      [vm_compute; reflexivity | reflexivity | repeat constructor; discriminate].
Defined.

(** ** C8: source path resolution *)

Lemma strchr_shorter : forall s c s', strchr s c = Some s' ->
  (String.length s' <= String.length s)%nat.
Proof.
  induction s as [|x r IH]; intros c s' H; simpl in H; [discriminate|].
  destruct (Ascii.eqb x c); [injection H as <-; lia|].
  destruct (uchar x =? 0); [discriminate|]. simpl. specialize (IH c s' H). lia.
Qed.

Lemma get_real_path_step_retry : forall access prefix s s',
  get_real_path_step access prefix s = PathRetry s' ->
  retry_errno (access (cstr prefix ++ "/" ++ cstr s)%string) = true /\
  (String.length s' < String.length s)%nat.
Proof.
  intros access prefix s s' H. unfold get_real_path_step in H.
  destruct (access (cstr prefix ++ "/" ++ cstr s)%string =? 0); [discriminate|].
  destruct (retry_errno _) eqn:Hr; [|discriminate]. split; [reflexivity|].
  destruct s as [|c r]; [discriminate|]. destruct (uchar c =? 0); [discriminate|].
  destruct (strchr r "/"%char) as [r'|] eqn:Hs; [|discriminate].
  injection H as <-. apply strchr_shorter in Hs. simpl. lia.
Qed.

Lemma get_real_path_loop_ends : forall access prefix fuel s,
  (String.length s < fuel)%nat -> get_real_path_loop access prefix fuel s <> None.
Proof.
  induction fuel as [|fuel IH]; intros s Hs; [lia|]. simpl.
  destruct (get_real_path_step access prefix s) eqn:Hst; try discriminate.
  apply get_real_path_step_retry in Hst as [_ Hlt]. apply IH. lia.
Qed.

(** C8. With a source prefix, get_real_path retries only on ENAMETOOLONG,
    ENOENT, EROFS or EFAULT, each retry strictly shortens the remaining
    [raw_path], a retry with no further ['/'] left fails with [-ENOENT],
    and the loop always ends. *)
Theorem get_real_path_terminates : forall access prefix raw_path,
  (forall s s', get_real_path_step access prefix s = PathRetry s' ->
     retry_errno (access (cstr prefix ++ "/" ++ cstr s)%string) = true /\
     (String.length s' < String.length s)%nat) /\
  (forall c r, uchar c <> 0 ->
     access (cstr prefix ++ "/" ++ cstr (String c r))%string <> 0 ->
     retry_errno (access (cstr prefix ++ "/" ++ cstr (String c r))%string) = true ->
     strchr r "/"%char = None ->
     get_real_path_step access prefix (String c r) = PathFail ENOENT) /\
  get_real_path access (Some prefix) raw_path <> None.
Proof.
  intros access prefix raw. split; [|split].
  - apply get_real_path_step_retry.
  - intros c r Hc Hne Hr Hs. unfold get_real_path_step.
    apply Z.eqb_neq in Hne, Hc. rewrite Hne, Hr, Hc, Hs. reflexivity.
  - unfold get_real_path. apply get_real_path_loop_ends. lia.
Qed.

(** ** C7: reverse lookup *)

(** C7 counterexample: at the entry of [foo] (declared at line 10), the
    line entry says line 11; the reported relative line is 0, not
    11 - 10. *)
Lemma reverse_lookup_entry_line_zero :
  find_perf_probe_point (Some sample_cu) (Some sample_entry_line) 4096 ppt_zero
    = (1, mkPPT (Some "foo.c"%string) (Some "foo"%string) 0 0) /\
  11 - 10 <> 0.
Proof. split; [vm_compute; reflexivity|lia]. Qed.

(** C7 (corrected). Reverse lookup at [addr] inside the subprogram
    [sp]: when a nonzero line [L] is found at exactly [addr], the line is
    made relative: to the declaration line of a covering inline instance
    (whose name is reported); otherwise it is 0 at the exact function
    entry, and [L] minus the declaration line of [sp] elsewhere.  When no
    line is found at [addr], the byte offset from the entry PC is
    reported. *)
Theorem reverse_lookup_relative_line : forall cu sp sname e addr,
  die_find_real_subprogram cu addr = Some sp ->
  dwarf_diename sp = Some sname -> dwarf_entrypc sp = Some e ->
  (forall l L src,
     ln_addr l = Some addr -> ln_lineno l = Some L -> L <> 0 -> ln_src l = Some src ->
     let r := find_perf_probe_point (Some cu) (Some l) addr ppt_zero in
     (forall ind iname D,
        die_find_inlinefunc sp addr = Some ind ->
        dwarf_diename ind = Some iname -> dwarf_decl_line ind = Some D ->
        r = (1, mkPPT (Some (cstr src)) (Some (cstr iname)) (L - D) 0)) /\
     (die_find_inlinefunc sp addr = None -> e = addr ->
        r = (1, mkPPT (Some (cstr src)) (Some (cstr sname)) 0 0)) /\
     (forall D, die_find_inlinefunc sp addr = None -> e <> addr ->
        dwarf_decl_line sp = Some D ->
        r = (1, mkPPT (Some (cstr src)) (Some (cstr sname)) (L - D) 0))) /\
  (forall line,
     (forall l, line = Some l ->
        ln_addr l <> Some addr \/ ln_lineno l = None \/ ln_src l = None) ->
     find_perf_probe_point (Some cu) line addr ppt_zero
       = (1, mkPPT None (Some (cstr sname)) 0 (word_of_Z (addr - e)))).
Proof.
  intros cu sp sname e addr Hsp Hn He. split.
  - intros l L src Ha Hl HL Hs r. subst r.
    unfold find_perf_probe_point. rewrite Ha, Hl, Hs, Z.eqb_refl.
    cbn [pp_function pp_offset ppt_zero pp_line pp_file].
    rewrite Hsp, Hn, He. apply Z.eqb_neq in HL. rewrite HL. cbn [negb].
    split; [|split].
    + intros ind iname D Hin Hin_n HD. rewrite Hin, Hin_n.
      unfold decl_line_ret. rewrite HD. reflexivity.
    + intros Hin ->. rewrite Hin, Z.eqb_refl, Z.sub_diag. reflexivity.
    + intros D Hin Hne HD. rewrite Hin.
      apply Z.eqb_neq in Hne. rewrite Hne. unfold decl_line_ret. rewrite HD. reflexivity.
  - intros line Hline. unfold find_perf_probe_point.
    assert (Hno : match line with
                  | Some l =>
                    match ln_addr l, ln_lineno l, ln_src l with
                    | Some laddr, Some lineno, Some src =>
                        if addr =? laddr
                        then (mkPPT (Some (cstr src)) (pp_function ppt_zero) lineno
                                    (pp_offset ppt_zero), true)
                        else (ppt_zero, false)
                    | _, _, _ => (ppt_zero, false)
                    end
                  | None => (ppt_zero, false)
                  end = (ppt_zero, false)).
    { destruct line as [l|]; [|reflexivity].
      destruct (Hline l eq_refl) as [Ha|[Hl|Hs]].
      - destruct (ln_addr l) as [laddr|]; [|reflexivity].
        destruct (ln_lineno l), (ln_src l); try reflexivity.
        destruct (Z.eqb_spec addr laddr) as [->|]; [contradiction|reflexivity].
      - rewrite Hl. destruct (ln_addr l); reflexivity.
      - rewrite Hs. destruct (ln_addr l), (ln_lineno l); reflexivity. }
    rewrite Hno. rewrite Hsp, Hn, He. reflexivity.
Qed.

Lemma reverse_lookup_relative_line_witness :
  die_find_real_subprogram sample_cu 4096 = Some sample_foo /\
  find_perf_probe_point (Some sample_cu) (Some sample_entry_line) 4096 ppt_zero
    = (1, mkPPT (Some "foo.c"%string) (Some "foo"%string) 0 0).
Proof.
  split; [reflexivity|].
  assert (H11 : 11 <> 0) by lia.
  destruct (reverse_lookup_relative_line sample_cu sample_foo "foo"%string 4096 4096
              eq_refl eq_refl eq_refl) as [Hline _].
  destruct (Hline sample_entry_line 11 "foo.c"%string eq_refl eq_refl H11 eq_refl)
    as [_ [Hentry _]].
  apply Hentry; reflexivity.
Defined.

(** ** Further properties of the line list *)

Lemma line_list_has_line_In : forall head x,
  line_list__has_line head x = true <-> In x head.
Proof.
  intros head x. unfold line_list__has_line. rewrite existsb_exists.
  split; [intros [y [Hy E]]; apply Z.eqb_eq in E; subst; exact Hy|].
  intro H. exists x. split; [exact H|apply Z.eqb_refl].
Qed.

Lemma line_list_rsearch_members : forall rl n,
  match line_list_rsearch rl n with
  | None => In n rl
  | Some rl' => forall x, In x rl' <-> x = n \/ In x rl
  end.
Proof.
  induction rl as [|ln rest IH]; intro n; simpl.
  - intro x. intuition congruence.
  - destruct (ln <? n).
    + intro x. simpl. intuition congruence.
    + destruct (Z.eqb_spec ln n) as [->|_]; [left; reflexivity|].
      specialize (IH n). destruct (line_list_rsearch rest n) as [rl'|]; simpl.
      * intro x. rewrite IH. intuition congruence.
      * right. exact IH.
Qed.

(** X1. After [line_list__add_line head n], [line_list__has_line] holds
    for [n] and for exactly the lines it held for before, whatever the
    order of the list. *)
Theorem line_list_has_after_add : forall head n x,
  line_list__has_line (snd (line_list__add_line head n)) x
    = (x =? n) || line_list__has_line head x.
Proof.
  intros head n x. unfold line_list__add_line.
  pose proof (line_list_rsearch_members (rev head) n) as Hm.
  destruct (line_list_rsearch (rev head) n) as [rl|]; simpl.
  - apply eq_true_iff_eq. rewrite orb_true_iff, !line_list_has_line_In, Z.eqb_eq.
    rewrite <- in_rev, Hm, <- in_rev. reflexivity.
  - rewrite <- in_rev in Hm. destruct (Z.eqb_spec x n) as [->|]; simpl; [|reflexivity].
    apply line_list_has_line_In, Hm.
Qed.

(** X2. On an ascending, duplicate-free list, [line_list__add_line]
    returns 1 exactly when [line_list__has_line] already holds for the
    line, and then leaves the list as it is; otherwise it returns 0. *)
Theorem line_list_add_reports_presence : forall head n,
  StronglySorted Z.lt head ->
  fst (line_list__add_line head n) = (if line_list__has_line head n then 1 else 0) /\
  (line_list__has_line head n = true -> snd (line_list__add_line head n) = head).
Proof.
  intros head n Hs. unfold line_list__add_line.
  pose proof (line_list_rsearch_spec (rev head) n (StronglySorted_rev _ head Hs)) as Hr.
  destruct (line_list__has_line head n) eqn:Hh;
    apply line_list_has_line_In in Hh || (rewrite <- not_true_iff_false, line_list_has_line_In in Hh).
  - destruct (line_list_rsearch (rev head) n) as [rl|].
    + destruct Hr as (_ & _ & Hnot). exfalso. apply Hnot. rewrite <- in_rev. exact Hh.
    + split; reflexivity.
  - destruct (line_list_rsearch (rev head) n) as [rl|].
    + split; [reflexivity|discriminate].
    + exfalso. apply Hh. rewrite in_rev. exact Hr.
Qed.

Lemma line_list_add_reports_presence_witness :
  StronglySorted Z.lt [1; 3] /\
  fst (line_list__add_line [1; 3] 3) = (if line_list__has_line [1; 3] 3 then 1 else 0) /\
  (line_list__has_line [1; 3] 3 = true -> snd (line_list__add_line [1; 3] 3) = [1; 3]).
Proof.
  assert (Hs : StronglySorted Z.lt [1; 3]) by (repeat constructor; lia).
  split; [exact Hs|]. apply (line_list_add_reports_presence [1; 3] 3 Hs).
Defined.

(** ** Further properties of strtailcmp *)

Lemma strtailcmp_loop_antisym : forall r1 r2,
  strtailcmp_loop r2 r1 = - strtailcmp_loop r1 r2.
Proof.
  induction r1 as [|a r1 IH]; intros [|b r2]; simpl; try reflexivity.
  rewrite (Z.eqb_sym b a). destruct (a =? b); [apply IH|lia].
Qed.

(** X3. strtailcmp is antisymmetric: swapping its arguments negates the
    result, so a match (0) does not depend on their order. *)
Theorem strtailcmp_antisymmetric : forall s1 s2,
  strtailcmp s2 s1 = - strtailcmp s1 s2.
Proof. intros s1 s2. unfold strtailcmp. apply strtailcmp_loop_antisym. Qed.

(** X4. cu_find_realpath returns the first file of the CU whose name
    strtailcmp-matches [fname], so that one of the two is a byte-level
    suffix of the other; when it finds none, no file matches. *)
Theorem cu_find_realpath_first_match : forall files fname,
  match cu_find_realpath (Some files) (Some fname) with
  | Some src =>
      exists pre post, files = pre ++ src :: post /\
        Forall (fun s => strtailcmp s fname <> 0) pre /\
        ((exists p, cchars fname = p ++ cchars src) \/
         (exists p, cchars src = p ++ cchars fname))
  | None => Forall (fun s => strtailcmp s fname <> 0) files
  end.
Proof.
  intros files fname. unfold cu_find_realpath.
  induction files as [|s fs IH]; simpl; [constructor|].
  destruct (Z.eqb_spec (strtailcmp s fname) 0) as [E|E].
  - exists [], fs. split; [reflexivity|]. split; [constructor|].
    unfold strtailcmp in E.
    rewrite strtailcmp_loop_zero in E by (apply Forall_rev_cbyte, cchars_bytes).
    rewrite !rev_prefix_suffix in E. exact E.
  - destruct (find (fun src => strtailcmp src fname =? 0) fs) as [src|].
    + destruct IH as (pre & post & -> & Hpre & Hm).
      exists (s :: pre), post. split; [reflexivity|]. split; [constructor; assumption|exact Hm].
    + constructor; assumption.
Qed.

(** ** The DIE searches *)

Lemma die_find_child_nil : forall cb a t, die_find_child cb (Die a t []) = None.
Proof. reflexivity. Qed.

Lemma die_find_child_cons : forall cb a t d sibs,
  die_find_child cb (Die a t (d :: sibs)) =
  if cb d =? DIE_FIND_CB_FOUND then Some d
  else match (if Z.testbit (cb d) 0 then die_find_child cb d else None) with
       | Some c => Some c
       | None => if Z.testbit (cb d) 1 then die_find_child cb (Die a t sibs) else None
       end.
Proof. reflexivity. Qed.

Lemma find_app_opt : forall {A} (f : A -> bool) l1 l2,
  find f (l1 ++ l2) = match find f l1 with Some x => Some x | None => find f l2 end.
Proof.
  intros A f l1 l2. induction l1 as [|x l1 IH]; simpl; [reflexivity|].
  destruct (f x); [reflexivity|exact IH].
Qed.

Lemma find_ext_eq : forall {A} (f g : A -> bool) l,
  (forall x, f x = g x) -> find f l = find g l.
Proof.
  intros A f g l H. induction l as [|x l IH]; simpl; [reflexivity|].
  rewrite H. destruct (g x); [reflexivity|exact IH].
Qed.

Lemma die_preorder_cons : forall a t d sibs,
  die_preorder (Die a t (d :: sibs)) = d :: die_preorder d ++ die_preorder (Die a t sibs).
Proof. reflexivity. Qed.

Section ChildSearch.
Variable cb : die -> Z.

(** A callback that answers only FOUND or CONTINUE makes die_find_child
    a search of every DIE below the root in pre-order. *)
Hypothesis cb_found_or_continue :
  forall d, cb d = DIE_FIND_CB_FOUND \/ cb d = DIE_FIND_CB_CONTINUE.

Lemma die_find_child_preorder : forall rt,
  die_find_child cb rt = find (fun d => cb d =? DIE_FIND_CB_FOUND) (die_preorder rt).
Proof.
  fix IH 1. intros [a t ch]. revert ch. fix IHl 1. intros [|d sibs].
  - reflexivity.
  - rewrite die_find_child_cons, die_preorder_cons. cbn [find].
    destruct (cb d =? DIE_FIND_CB_FOUND) eqn:E; [reflexivity|].
    destruct (cb_found_or_continue d) as [H|H]; [rewrite H in E; discriminate|].
    rewrite H.
    change (Z.testbit DIE_FIND_CB_CONTINUE 0) with true.
    change (Z.testbit DIE_FIND_CB_CONTINUE 1) with true. cbv iota.
    rewrite (IH d), find_app_opt.
    destruct (find (fun d0 => cb d0 =? DIE_FIND_CB_FOUND) (die_preorder d)); [reflexivity|].
    apply IHl.
Qed.

End ChildSearch.

Section SiblingSearch.
Variable cb : die -> Z.

Hypothesis cb_found_or_sibling :
  forall d, cb d = DIE_FIND_CB_FOUND \/ cb d = DIE_FIND_CB_SIBLING.

Lemma die_find_child_siblings : forall a t ch,
  die_find_child cb (Die a t ch) = find (fun d => cb d =? DIE_FIND_CB_FOUND) ch.
Proof.
  intros a t. induction ch as [|d sibs IH]; [reflexivity|].
  rewrite die_find_child_cons. cbn [find].
  destruct (cb d =? DIE_FIND_CB_FOUND) eqn:E; [reflexivity|].
  destruct (cb_found_or_sibling d) as [H|H]; [rewrite H in E; discriminate|].
  rewrite H. exact IH.
Qed.

End SiblingSearch.

(** X5. die_find_variable returns the first DIE, in depth-first pre-order
    over everything below [sp] (nested lexical blocks included, [sp]
    itself excluded), that is a variable or a formal parameter named
    [name]. *)
Theorem die_find_variable_preorder : forall sp name,
  die_find_variable sp name =
  find (fun d => (dw_tag_eqb (dwarf_tag d) DW_TAG_formal_parameter
                  || dw_tag_eqb (dwarf_tag d) DW_TAG_variable)
                 && negb (die_compare_name d name))
       (die_preorder sp).
Proof.
  intros sp name. unfold die_find_variable.
  rewrite die_find_child_preorder.
  - apply find_ext_eq. intro d. unfold die_find_variable_cb.
    destruct (_ && _); reflexivity.
  - intro d. unfold die_find_variable_cb. destruct (_ && _); [left|right]; reflexivity.
Qed.

(** X6. die_find_inlinefunc returns the first DIE below [sp], in
    depth-first pre-order, that is an inlined subroutine whose ranges
    hold [addr]; an outer instance is returned before any instance
    nested in it. *)
Theorem die_find_inlinefunc_preorder : forall sp addr,
  die_find_inlinefunc sp addr =
  find (fun d => dw_tag_eqb (dwarf_tag d) DW_TAG_inlined_subroutine && dwarf_haspc d addr)
       (die_preorder sp).
Proof.
  intros sp addr. unfold die_find_inlinefunc.
  rewrite die_find_child_preorder.
  - apply find_ext_eq. intro d. unfold die_find_inline_cb.
    destruct (_ && _); reflexivity.
  - intro d. unfold die_find_inline_cb. destruct (_ && _); [left|right]; reflexivity.
Qed.

(** X7. die_find_member looks only at the direct children of the
    structure DIE: it returns the first child that is a member named
    [name], never a member of a nested structure. *)
Theorem die_find_member_children : forall st name,
  die_find_member st name =
  find (fun d => dw_tag_eqb (dwarf_tag d) DW_TAG_member && negb (die_compare_name d name))
       (die_children st).
Proof.
  intros [a t ch] name. unfold die_find_member.
  rewrite die_find_child_siblings.
  - apply find_ext_eq. intro d. unfold die_find_member_cb.
    destruct (_ && _); reflexivity.
  - intro d. unfold die_find_member_cb. destruct (_ && _); [left|right]; reflexivity.
Qed.

(** X8. die_get_real_type never returns a qualifier or a typedef
    (const, restrict, volatile, shared, typedef): it follows
    [DW_AT_type] through all of them. *)
Theorem die_get_real_type_unqualified : forall vr t,
  die_get_real_type vr = Some t -> is_qualifier_tag (dwarf_tag t) = false.
Proof.
  fix IH 1. intros [a [t0|] ch] t H; simpl in H; [|discriminate].
  destruct (is_qualifier_tag (dwarf_tag t0)) eqn:E.
  - exact (IH t0 t H).
  - injection H as <-. exact E.
Qed.

Lemma die_get_real_type_unqualified_witness :
  die_get_real_type (Die (no_attrs DW_TAG_variable) (Some sample_const_int) []) = Some sample_int /\
  is_qualifier_tag (dwarf_tag sample_int) = false.
Proof.
  split; [reflexivity|].
  exact (die_get_real_type_unqualified
           (Die (no_attrs DW_TAG_variable) (Some sample_const_int) []) sample_int eq_refl).
Defined.

(** ** Location and field conversion *)

Ltac decide_Z_tests :=
  repeat match goal with
  | |- context [?a =? ?b] => destruct (Z.eqb_spec a b); try lia
  | |- context [?a <=? ?b] => destruct (Z.leb_spec a b); try lia
  end.

(** X9. A location whose first operation names a register converts to
    that register's name, read directly for [DW_OP_reg0..31] and
    [DW_OP_regx], and through one indirection at the (signed) operand
    offset for [DW_OP_breg0..31] and [DW_OP_bregx]; a register the
    architecture table does not know fails with -ERANGE. *)
Theorem convert_variable_location_registers : forall get_arch_regstr vr pf la op0 rest,
  a_location (die_attrs_of vr) = Some la ->
  dwarf_getlocation_addr la (pf_addr pf) = Some (op0 :: rest) ->
  let loc (regn : Z) (ref : list Z) : res (string * list Z) :=
    match get_arch_regstr regn with Some regs => Ok (regs, ref) | None => Err ERANGE end in
  (DW_OP_reg0 <= atom op0 <= DW_OP_reg31 ->
     convert_variable_location get_arch_regstr vr pf = loc (atom op0 - DW_OP_reg0) []) /\
  (DW_OP_breg0 <= atom op0 <= DW_OP_breg31 ->
     convert_variable_location get_arch_regstr vr pf
       = loc (atom op0 - DW_OP_breg0) [long_of_word (word_of_Z (number op0))]) /\
  (atom op0 = DW_OP_regx ->
     convert_variable_location get_arch_regstr vr pf = loc (uint_of_Z (number op0)) []) /\
  (atom op0 = DW_OP_bregx ->
     convert_variable_location get_arch_regstr vr pf
       = loc (uint_of_Z (number op0)) [long_of_word (word_of_Z (number2 op0))]).
Proof.
  intros g vr pf la op0 rest Hla Hloc loc.
  unfold convert_variable_location. rewrite Hla. cbn [option_map]. rewrite Hloc.
  subst loc.
  unfold DW_OP_addr, DW_OP_fbreg, DW_OP_breg0, DW_OP_breg31, DW_OP_reg0, DW_OP_reg31,
    DW_OP_bregx, DW_OP_regx.
  split; [|split; [|split]]; intro Hr; decide_Z_tests; rewrite ?Z.add_0_l; reflexivity.
Qed.

Lemma convert_variable_location_registers_witness :
  a_location (die_attrs_of (sample_reg_loc_var [mkOp (DW_OP_breg0 + 6) (word_of_Z (-8)) 0]))
    = Some (LocExpr [mkOp (DW_OP_breg0 + 6) (word_of_Z (-8)) 0]) /\
  dwarf_getlocation_addr (LocExpr [mkOp (DW_OP_breg0 + 6) (word_of_Z (-8)) 0]) 4096
    = Some [mkOp (DW_OP_breg0 + 6) (word_of_Z (-8)) 0] /\
  convert_variable_location sample_regs
    (sample_reg_loc_var [mkOp (DW_OP_breg0 + 6) (word_of_Z (-8)) 0]) (mkPF 4096 None)
    = Ok ("%bp"%string, [-8]).
Proof.
  split; [reflexivity|]. split; [reflexivity|].
  destruct (convert_variable_location_registers sample_regs
              (sample_reg_loc_var [mkOp (DW_OP_breg0 + 6) (word_of_Z (-8)) 0])
              (mkPF 4096 None) _ (mkOp (DW_OP_breg0 + 6) (word_of_Z (-8)) 0) []
              eq_refl eq_refl) as (_ & Hb & _ & _).
  rewrite Hb by (simpl; unfold DW_OP_breg0, DW_OP_breg31; lia).
  vm_compute. reflexivity.
Defined.

Lemma find_none_forall : forall {A} (f : A -> bool) l,
  Forall (fun x => f x = false) l -> find f l = None.
Proof.
  intros A f l H. induction H as [|x l Hx _ IH]; simpl; [reflexivity|].
  rewrite Hx. exact IH.
Qed.

(** X10. Without a location at the probe address (no [DW_AT_location],
    a location list with no entry covering the address, or an empty
    expression) the conversion fails with -ENOENT; a first operation
    that is neither [DW_OP_addr], [DW_OP_fbreg] nor a register form
    fails with -ENOTSUP. *)
Theorem convert_variable_location_errors : forall get_arch_regstr vr pf,
  (a_location (die_attrs_of vr) = None ->
     convert_variable_location get_arch_regstr vr pf = Err ENOENT) /\
  (forall es, a_location (die_attrs_of vr) = Some (LocList es) ->
     Forall (fun e => let '(lo, hi, _) := e in ~ (lo <= pf_addr pf < hi)) es ->
     convert_variable_location get_arch_regstr vr pf = Err ENOENT) /\
  (forall la, a_location (die_attrs_of vr) = Some la ->
     dwarf_getlocation_addr la (pf_addr pf) = Some [] ->
     convert_variable_location get_arch_regstr vr pf = Err ENOENT) /\
  (forall la op0 rest, a_location (die_attrs_of vr) = Some la ->
     dwarf_getlocation_addr la (pf_addr pf) = Some (op0 :: rest) ->
     atom op0 <> DW_OP_addr -> atom op0 <> DW_OP_fbreg ->
     ~ (DW_OP_reg0 <= atom op0 <= DW_OP_reg31) -> ~ (DW_OP_breg0 <= atom op0 <= DW_OP_breg31) ->
     atom op0 <> DW_OP_regx -> atom op0 <> DW_OP_bregx ->
     convert_variable_location get_arch_regstr vr pf = Err ENOTSUP).
Proof.
  intros g vr pf. unfold convert_variable_location. split; [|split; [|split]].
  - intros ->. reflexivity.
  - intros es -> Hes. cbn [option_map dwarf_getlocation_addr].
    rewrite find_none_forall; [reflexivity|].
    eapply Forall_impl; [|exact Hes]. intros [[lo hi] ops] Hn. simpl in Hn.
    apply not_true_is_false. intro Hb. apply andb_true_iff in Hb as [H1 H2].
    apply Z.leb_le in H1. apply Z.ltb_lt in H2. lia.
  - intros la -> Hl. cbn [option_map]. rewrite Hl. reflexivity.
  - intros la op0 rest -> Hl Ha Hf Hr Hb Hx Hbx. cbn [option_map]. rewrite Hl.
    unfold DW_OP_addr, DW_OP_fbreg, DW_OP_breg0, DW_OP_breg31, DW_OP_reg0, DW_OP_reg31,
      DW_OP_bregx, DW_OP_regx in *.
    decide_Z_tests; reflexivity.
Qed.

(** X11. A field access that does not fit the type fails with -EINVAL:
    ['.'] on a pointer, ['->'] or an index on a structure, and any field
    on a type that is neither a pointer, an array nor a structure. *)
Theorem convert_variable_fields_mismatch : forall vr varname f next chain dm ty,
  die_get_real_type vr = Some ty ->
  ((is_pointer_tag (dwarf_tag ty) = true /\ field_is_index f = false /\ f_ref f = false) \/
   (is_struct_tag (dwarf_tag ty) = true /\ (field_is_index f = true \/ f_ref f = true)) \/
   (is_pointer_tag (dwarf_tag ty) = false /\ is_array_tag (dwarf_tag ty) = false /\
    is_struct_tag (dwarf_tag ty) = false)) ->
  convert_variable_fields vr varname (f :: next) chain dm = Err EINVAL.
Proof.
  intros vr varname f next chain dm ty Hty Hc. cbn [convert_variable_fields].
  rewrite Hty. unfold is_pointer_tag, is_array_tag, is_struct_tag in *.
  destruct (dwarf_tag ty); simpl in Hc |- *;
    destruct (field_is_index f), (f_ref f);
    intuition discriminate.
Qed.

Lemma convert_variable_fields_mismatch_witness :
  die_get_real_type sample_ptr_var = Some sample_pair_ptr /\
  convert_variable_fields sample_ptr_var "pp" [mkField "a" false 0] [-8] sample_ptr_var
    = Err EINVAL.
Proof.
  split; [reflexivity|].
  apply (convert_variable_fields_mismatch sample_ptr_var _ _ _ _ _ sample_pair_ptr eq_refl).
  left. split; [reflexivity|]. split; reflexivity.
Defined.

Lemma removelast_split : forall (l : list Z),
  exists e, l = removelast l ++ e /\ (List.length e <= 1)%nat.
Proof.
  intro l. destruct l as [|x r] using rev_ind.
  - exists []. split; [reflexivity|simpl; lia].
  - exists [x]. rewrite removelast_last. split; [reflexivity|simpl; lia].
Qed.

Lemma ref_add_last_shape : forall chain v ch',
  ref_add_last chain v = Some ch' ->
  List.length ch' = List.length chain /\ exists x, ch' = removelast chain ++ [x].
Proof.
  induction chain as [|x r IH]; intros v ch' H; [discriminate|].
  destruct r as [|y r'].
  - injection H as <-. split; [reflexivity|]. eexists. reflexivity.
  - change (option_map (cons x) (ref_add_last (y :: r') v) = Some ch') in H.
    destruct (ref_add_last (y :: r') v) as [c|] eqn:E; [|discriminate].
    injection H as <-. destruct (IH v c E) as [Hl [z Hz]].
    split; [simpl; rewrite Hl; reflexivity|]. exists z.
    change (removelast (x :: y :: r')) with (x :: removelast (y :: r')).
    rewrite Hz. reflexivity.
Qed.

Lemma keeps_outer_frames_refl : forall c, keeps_outer_frames c c.
Proof.
  intro c. split; [lia|]. destruct (removelast_split c) as [e [He _]]. exists e. exact He.
Qed.

Lemma keeps_outer_frames_ref : forall chain v ch',
  ref_add_last chain v = Some ch' -> keeps_outer_frames chain ch'.
Proof.
  intros chain v ch' H. apply ref_add_last_shape in H as [Hl [x Hx]].
  split; [lia|]. exists [x]. exact Hx.
Qed.

Lemma keeps_outer_frames_push : forall chain, keeps_outer_frames chain (chain ++ [0]).
Proof.
  intro chain. split; [rewrite length_app; simpl; lia|].
  destruct (removelast_split chain) as [e [He _]]. exists (e ++ [0]).
  rewrite app_assoc, <- He. reflexivity.
Qed.

Lemma keeps_outer_frames_trans : forall a b c,
  keeps_outer_frames a b -> keeps_outer_frames b c -> keeps_outer_frames a c.
Proof.
  intros a b c [Hab [e He]] [Hbc [e' He']]. split; [lia|].
  destruct a as [|x a'].
  - exists c. reflexivity.
  - assert (Hne : e <> []).
    { intros ->. rewrite app_nil_r in He. subst b.
      destruct (exists_last (l := x :: a') ltac:(discriminate)) as [l' [y Hy]].
      rewrite Hy, removelast_last, length_app in Hab. simpl in Hab. lia. }
    exists (removelast e ++ e'). rewrite He', He, removelast_app by exact Hne.
    rewrite app_assoc. reflexivity.
Qed.

(** X12. Converting a field chain only changes the current (last)
    indirection frame of [ref] and appends new frames: the frames of
    earlier dereferences are kept and the chain never gets shorter. *)
Theorem convert_variable_fields_outer_frames : forall fl vr varname chain dm ch' d',
  convert_variable_fields vr varname fl chain dm = Ok (ch', d') ->
  keeps_outer_frames chain ch'.
Proof.
  induction fl as [|f next IH]; intros vr varname chain dm ch' d' H.
  - injection H as <- _. apply keeps_outer_frames_refl.
  - cbn [convert_variable_fields] in H;
    repeat match type of H with
    | context [match ?x with _ => _ end] =>
        let E := fresh "E" in destruct x eqn:E; try discriminate H
    end;
    repeat match goal with
    | E : context [if ?b then _ else _] |- _ => destruct b
    end;
    subst; try (injection H as <- _);
    try (apply IH in H);
    first
      [ eapply keeps_outer_frames_ref; eassumption
      | eapply keeps_outer_frames_trans;
          [eapply keeps_outer_frames_ref; eassumption|assumption]
      | eapply keeps_outer_frames_trans;
          [apply keeps_outer_frames_push|eapply keeps_outer_frames_ref; eassumption]
      | eapply keeps_outer_frames_trans;
          [apply keeps_outer_frames_push|
           eapply keeps_outer_frames_trans;
             [eapply keeps_outer_frames_ref; eassumption|assumption]] | idtac ].
Qed.

Lemma convert_variable_fields_outer_frames_witness :
  convert_variable_fields sample_ptr_var "pp" [mkField "a" true 0] [-8] sample_ptr_var
    = Ok ([-8; 0], Die (mkAttrs DW_TAG_member (Some "a"%string) [] None None None None None None
                               (Some (MemberConst 0))) (Some sample_int) []) /\
  keeps_outer_frames [-8] [-8; 0].
Proof.
  split; [reflexivity|].
  exact (convert_variable_fields_outer_frames [mkField "a" true 0] sample_ptr_var "pp" [-8]
           sample_ptr_var _ _ eq_refl).
Defined.

(** ** Argument names and variable lookup *)

Lemma replace_first_colon_none : forall s,
  ~ In ":"%char (list_ascii_of_string s) -> replace_first_colon s = s.
Proof.
  induction s as [|c r IH]; intro Hn; [reflexivity|]. simpl in Hn |- *.
  destruct (Ascii.eqb_spec c ":"%char) as [->|Hc]; [exfalso; apply Hn; left; reflexivity|].
  destruct (uchar c =? 0); [reflexivity|]. rewrite IH; [reflexivity|].
  intro H. apply Hn. right. exact H.
Qed.

Lemma replace_first_colon_split : forall a b,
  ~ In ":"%char (list_ascii_of_string a) ->
  Forall (fun c => uchar c <> 0) (list_ascii_of_string a) ->
  replace_first_colon (a ++ ":" ++ b) = (a ++ "_" ++ b)%string.
Proof.
  induction a as [|c r IH]; intros b Hn Hz; [reflexivity|]. simpl in Hn, Hz |- *.
  inversion Hz as [|? ? Hc Hr]; subst.
  destruct (Ascii.eqb_spec c ":"%char) as [->|Hcc]; [exfalso; apply Hn; left; reflexivity|].
  destruct (Z.eqb_spec (uchar c) 0); [contradiction|].
  specialize (IH b). simpl in IH. rewrite IH; [reflexivity| |exact Hr].
  intro H. apply Hn. right. exact H.
Qed.

Lemma cstr_no_nul : forall s,
  Forall (fun c => uchar c <> 0) (list_ascii_of_string s) -> cstr s = s.
Proof.
  induction s as [|c r IH]; intro Hz; [reflexivity|]. simpl in Hz |- *.
  inversion Hz as [|? ? Hc Hr]; subst.
  destruct (Z.eqb_spec (uchar c) 0); [contradiction|]. rewrite IH by exact Hr. reflexivity.
Qed.

Lemma list_ascii_of_string_app : forall a b,
  list_ascii_of_string (a ++ b) = list_ascii_of_string a ++ list_ascii_of_string b.
Proof.
  induction a as [|c r IH]; intro b; [reflexivity|]. simpl. rewrite IH. reflexivity.
Qed.

(** X13. Without an explicit name, the argument is named after the
    synthesized text with its first [':'] (the type separator) turned
    into ['_']; a text without [':'] is used as it is. An explicit name
    is copied up to its terminating NUL. *)
Theorem probe_arg_name_synthesized : forall synthesize_perf_probe_arg pvar,
  (forall a b,
     synthesize_perf_probe_arg pvar = Ok (a ++ ":" ++ b)%string ->
     ~ In ":"%char (list_ascii_of_string a) ->
     Forall (fun c => uchar c <> 0) (list_ascii_of_string (a ++ b)) ->
     probe_arg_name synthesize_perf_probe_arg None pvar = Ok (a ++ "_" ++ b)%string) /\
  (forall s,
     synthesize_perf_probe_arg pvar = Ok s ->
     ~ In ":"%char (list_ascii_of_string s) ->
     Forall (fun c => uchar c <> 0) (list_ascii_of_string s) ->
     probe_arg_name synthesize_perf_probe_arg None pvar = Ok s) /\
  (forall n,
     Forall (fun c => uchar c <> 0) (list_ascii_of_string n) ->
     probe_arg_name synthesize_perf_probe_arg (Some n) pvar = Ok n).
Proof.
  intros synth pvar. split; [|split].
  - intros a b Hs Hn Hz. unfold probe_arg_name. rewrite Hs.
    rewrite list_ascii_of_string_app in Hz. apply Forall_app in Hz as [Ha Hb].
    rewrite replace_first_colon_split by assumption.
    rewrite cstr_no_nul; [reflexivity|].
    rewrite !list_ascii_of_string_app. apply Forall_app. split; [exact Ha|].
    constructor; [vm_compute; discriminate|exact Hb].
  - intros s Hs Hn Hz. unfold probe_arg_name. rewrite Hs.
    rewrite replace_first_colon_none, cstr_no_nul by assumption. reflexivity.
  - intros n Hz. unfold probe_arg_name. rewrite cstr_no_nul by exact Hz. reflexivity.
Qed.

(** X14. A C-name argument is looked up among the variables and formal
    parameters below the probed function first, the first in
    depth-first pre-order winning; only when there is none there is it
    looked up in the enclosing scopes, and when that fails too the result
    is -ENOENT. The DIE found is converted by convert_variable. *)
Theorem find_variable_lookup : forall get_arch_regstr synthesize_perf_probe_arg is_c_varname
    scope_variable sp pf pname pvar name,
  probe_arg_name synthesize_perf_probe_arg pname pvar = Ok name ->
  is_c_varname (pv_var pvar) = true ->
  let conv (vr : die) : res (string * kprobe_trace_arg) :=
    match convert_variable get_arch_regstr vr pf pvar with
    | Ok ta => Ok (name, ta) | Err e => Err e | Fault => Fault
    end in
  find_variable get_arch_regstr synthesize_perf_probe_arg is_c_varname scope_variable
    sp pf pname pvar =
  match find (fun d => (dw_tag_eqb (dwarf_tag d) DW_TAG_formal_parameter
                        || dw_tag_eqb (dwarf_tag d) DW_TAG_variable)
                       && negb (die_compare_name d (pv_var pvar)))
             (die_preorder sp) with
  | Some vr => conv vr
  | None =>
    match scope_variable sp (pv_var pvar) with
    | Some vr => conv vr
    | None => Err ENOENT
    end
  end.
Proof.
  intros gar synth isc scope sp pf pname pvar name Hn Hc conv.
  unfold find_variable. rewrite Hn, Hc. cbn [negb].
  unfold die_find_variable. rewrite die_find_child_preorder.
  - rewrite (find_ext_eq _ (fun d => (dw_tag_eqb (dwarf_tag d) DW_TAG_formal_parameter
                        || dw_tag_eqb (dwarf_tag d) DW_TAG_variable)
                       && negb (die_compare_name d (pv_var pvar)))).
    + reflexivity.
    + intro d. unfold die_find_variable_cb. destruct (_ && _); reflexivity.
  - intro d. unfold die_find_variable_cb. destruct (_ && _); [left|right]; reflexivity.
Qed.

Lemma find_variable_lookup_witness :
  find_variable sample_regs (fun _ => Ok ""%string) (fun _ => true) (fun _ _ => None)
    sample_scope_sp (mkPF 4096 None) (Some "arg1"%string) (mkPArg "v" [] None)
  = Ok ("arg1"%string, mkTArg "%bp" [-8] (Some "s32"%string)).
Proof.
  rewrite (find_variable_lookup sample_regs (fun _ => Ok ""%string) (fun _ => true)
             (fun _ _ => None) sample_scope_sp (mkPF 4096 None) (Some "arg1"%string)
             (mkPArg "v" [] None) "arg1"%string eq_refl eq_refl).
  vm_compute. reflexivity.
Defined.

(** ** Probe point searches over the line table *)

Lemma probe_by_line_loop_addrs : forall fill_probe_point lno fname lines pf,
  Forall (fun l => ln_lineno l = Some lno ->
                   tail_match (ln_src l) fname <> None /\
                   (tail_match (ln_src l) fname = Some true -> ln_addr l <> None)) lines ->
  probe_by_line_loop fill_probe_point lno fname pf lines
  = find_probe_points (fill_probe_point None) pf (probe_line_addrs lno fname lines).
Proof.
  intros fill lno fname lines. unfold probe_line_addrs.
  induction lines as [|l rest IH]; intros pf HF; [reflexivity|].
  inversion HF as [|? ? Hl Hrest]; subst. cbn [probe_by_line_loop flat_map].
  destruct (ln_lineno l) as [n|]; [|apply IH; exact Hrest].
  destruct (Z.eqb_spec n lno) as [<-|Hne]; cbn [negb].
  - destruct (Hl eq_refl) as [Ht Ha].
    destruct (tail_match (ln_src l) fname) as [[|]|]; [|apply IH; exact Hrest|contradiction].
    destruct (ln_addr l) as [a|]; [|exfalso; exact (Ha eq_refl eq_refl)].
    cbn [app find_probe_points].
    destruct (convert_probe_point (fill None) pf a) as [pf' [u|e|]];
      [apply IH; exact Hrest|reflexivity|reflexivity].
  - assert (Hn : (n =? lno) = false) by (apply Z.eqb_neq; exact Hne).
    rewrite IH by exact Hrest.
    destruct (tail_match (ln_src l) fname) as [[|]|]; [|reflexivity|reflexivity].
    destruct (ln_addr l); reflexivity.
Qed.

(** X15. When every line-table entry of the wanted line has a source
    file name, and every such entry of the wanted file has an address,
    find_probe_point_by_line converts, in line-table order, exactly the
    addresses of the entries with that line number and file, stopping at
    the first conversion that fails. *)
Theorem find_probe_point_by_line_addrs : forall fill_probe_point lno fname lines pf,
  Forall (fun l => ln_lineno l = Some lno ->
                   tail_match (ln_src l) fname <> None /\
                   (tail_match (ln_src l) fname = Some true -> ln_addr l <> None)) lines ->
  find_probe_point_by_line fill_probe_point lno fname (Some lines) pf
  = find_probe_points (fill_probe_point None) pf (probe_line_addrs lno fname lines).
Proof.
  intros fill lno fname lines pf HF. exact (probe_by_line_loop_addrs fill lno fname lines pf HF).
Qed.

Lemma find_probe_point_by_line_addrs_witness :
  find_probe_point_by_line (fun _ => sample_fill) 10 (Some "foo.c"%string) (Some sample_lines)
    (pf_events_init 4)
  = find_probe_points sample_fill (pf_events_init 4) [4096; 4120].
Proof.
  exact (find_probe_point_by_line_addrs (fun _ => sample_fill) 10 (Some "foo.c"%string)
           sample_lines (pf_events_init 4)
           ltac:(repeat constructor; vm_compute; first [discriminate | intros; discriminate])).
Defined.

Lemma probe_lazy_loop_addrs : forall fill_probe_point sp fname lcache lines ret pf,
  Forall (fun l => match ln_lineno l with
                   | Some n => line_list__has_line lcache n = true ->
                               tail_match (ln_src l) fname <> None
                   | None => True
                   end) lines ->
  probe_lazy_loop fill_probe_point sp fname lcache ret pf lines
  = let '(pf', r) := find_probe_points (fill_probe_point sp) pf
                                       (lazy_line_addrs sp fname lcache lines) in
    (pf', match r with
          | Ok _ => Ok (match lazy_line_addrs sp fname lcache lines with
                        | [] => ret | _ :: _ => 0 end)
          | Err e => Err e
          | Fault => Fault
          end).
Proof.
  intros fill sp fname lcache lines. unfold lazy_line_addrs.
  induction lines as [|l rest IH]; intros ret pf HF; [reflexivity|].
  inversion HF as [|? ? Hl Hrest]; subst. cbn [probe_lazy_loop flat_map].
  destruct (ln_lineno l) as [n|]; [|apply IH; exact Hrest].
  destruct (line_list__has_line lcache n) eqn:Eh; cbn [negb andb].
  - specialize (Hl eq_refl).
    destruct (tail_match (ln_src l) fname) as [[|]|]; [|apply IH; exact Hrest|contradiction].
    destruct (ln_addr l) as [a|]; [|apply IH; exact Hrest].
    destruct (in_probe_scope sp a); cbn [negb]; [|apply IH; exact Hrest].
    cbn [app find_probe_points].
    destruct (convert_probe_point (fill sp) pf a) as [pf' [u|e|]]; [|reflexivity|reflexivity].
    rewrite IH by exact Hrest.
    destruct (find_probe_points (fill sp) pf' _) as [pf'' [u'|e'|]]; [|reflexivity|reflexivity].
    destruct (flat_map _ rest); reflexivity.
  - rewrite IH by exact Hrest.
    destruct (tail_match (ln_src l) fname) as [[|]|]; [|reflexivity|reflexivity].
    destruct (ln_addr l); reflexivity.
Qed.

(** X16. With a non-empty line cache (the lazy pattern already matched),
    and a source file name on every line-table entry whose line is
    cached, find_probe_point_lazy keeps the cache and converts exactly
    the addresses of the entries whose line is cached, whose file
    matches and which lie in [sp] outside its inline instances; its
    result is 0 unless a conversion fails. *)
Theorem find_probe_point_lazy_cached : forall fill_probe_point strlazymatch read_file sp fname
    pat lines lcache pf,
  lcache <> [] ->
  Forall (fun l => match ln_lineno l with
                   | Some n => line_list__has_line lcache n = true ->
                               tail_match (ln_src l) fname <> None
                   | None => True
                   end) lines ->
  find_probe_point_lazy fill_probe_point strlazymatch read_file sp fname pat (Some lines)
    lcache pf
  = let '(pf', r) := find_probe_points (fill_probe_point sp) pf
                                       (lazy_line_addrs sp fname lcache lines) in
    (lcache, pf', match r with Ok _ => Ok 0 | Err e => Err e | Fault => Fault end).
Proof.
  intros fill slm rf sp fname pat lines lcache pf Hne HF.
  destruct lcache as [|x xs]; [contradiction|].
  unfold find_probe_point_lazy. rewrite probe_lazy_loop_addrs by exact HF.
  destruct (find_probe_points _ _ _) as [pf' [u|e|]]; [|reflexivity|reflexivity].
  destruct (lazy_line_addrs _ _ _ _); reflexivity.
Qed.

Lemma find_probe_point_lazy_cached_witness :
  find_probe_point_lazy (fun _ => sample_fill) (fun _ _ => true) (fun _ => inl 2) None
    (Some "foo.c"%string) "*" (Some sample_lines) [10] (pf_events_init 4)
  = let '(pf', r) := find_probe_points sample_fill (pf_events_init 4) [4096; 4120] in
    ([10], pf', match r with Ok _ => Ok 0 | Err e => Err e | Fault => Fault end).
Proof.
  exact (find_probe_point_lazy_cached (fun _ => sample_fill) (fun _ _ => true) (fun _ => inl 2)
           None (Some "foo.c"%string) "*" sample_lines [10] (pf_events_init 4)
           ltac:(discriminate)
           ltac:(repeat constructor; vm_compute; intros; discriminate)).
Defined.

(** X17. With an empty line cache, find_probe_point_lazy first matches
    the pattern against the source file: no matching line gives 0
    without reading the line table, a failure gives its error, and
    otherwise the probes are those of the lines found; when none of them
    leads to a probe point, the result is the number of matching lines
    (a positive value) rather than 0. *)
Theorem find_probe_point_lazy_first_match : forall fill_probe_point strlazymatch read_file sp
    fname pat lines pf k lc,
  find_lazy_match_lines_file strlazymatch read_file [] fname pat = (k, lc) ->
  (k = 0 -> find_probe_point_lazy fill_probe_point strlazymatch read_file sp fname pat lines
              [] pf = (lc, pf, Ok 0)) /\
  (k < 0 -> find_probe_point_lazy fill_probe_point strlazymatch read_file sp fname pat lines
              [] pf = (lc, pf, Err (- k))) /\
  (forall ls, 0 < k -> lines = Some ls ->
     Forall (fun l => match ln_lineno l with
                      | Some n => line_list__has_line lc n = true ->
                                  tail_match (ln_src l) fname <> None
                      | None => True
                      end) ls ->
     find_probe_point_lazy fill_probe_point strlazymatch read_file sp fname pat lines [] pf
     = let '(pf', r) := find_probe_points (fill_probe_point sp) pf
                                          (lazy_line_addrs sp fname lc ls) in
       (lc, pf', match r with
                 | Ok _ => Ok (match lazy_line_addrs sp fname lc ls with
                               | [] => k | _ :: _ => 0 end)
                 | Err e => Err e
                 | Fault => Fault
                 end)).
Proof.
  intros fill slm rf sp fname pat lines pf k lc Hm.
  unfold find_probe_point_lazy. rewrite Hm. split; [|split].
  - intros ->. reflexivity.
  - intros Hk. destruct (Z.eqb_spec k 0); [lia|]. destruct (Z.ltb_spec k 0); [reflexivity|lia].
  - intros ls Hk -> HF. destruct (Z.eqb_spec k 0); [lia|].
    destruct (Z.ltb_spec k 0); [lia|].
    rewrite probe_lazy_loop_addrs by exact HF.
    destruct (find_probe_points _ _ _) as [pf' r]. reflexivity.
Qed.

Lemma find_probe_point_lazy_first_match_witness :
  find_lazy_match_lines_file (fun _ _ => true) (fun _ => inl 2) [] (Some "foo.c"%string) "*"
    = (-2, []) /\
  find_probe_point_lazy (fun _ => sample_fill) (fun _ _ => true) (fun _ => inl 2) None
    (Some "foo.c"%string) "*" (Some sample_lines) [] (pf_events_init 4)
    = ([], pf_events_init 4, Err 2).
Proof.
  split; [reflexivity|].
  destruct (find_probe_point_lazy_first_match (fun _ => sample_fill) (fun _ _ => true)
              (fun _ => inl 2) None (Some "foo.c"%string) "*" (Some sample_lines)
              (pf_events_init 4) (-2) [] eq_refl) as (_ & Hneg & _).
  apply Hneg. lia.
Defined.

Lemma list_set_length : forall {A} (l : list A) n x,
  List.length (list_set l n x) = List.length l.
Proof.
  induction l as [|y r IH]; intros n x; [reflexivity|].
  destruct n; simpl; [reflexivity|]. rewrite IH. reflexivity.
Qed.

Lemma firstn_list_set : forall {A} (l : list A) n x,
  firstn n (list_set l n x) = firstn n l.
Proof.
  induction l as [|y r IH]; intros n x; [destruct n; reflexivity|].
  destruct n; simpl; [reflexivity|]. rewrite IH. reflexivity.
Qed.

(** X18. The search loops keep the event array consistent whatever the
    individual conversions return: the count never exceeds the capacity,
    the capacity and the array length do not change, the count only
    grows, by at most one per candidate address, and the events already
    stored are left untouched. *)
Theorem find_probe_points_capacity : forall fill_probe_point addrs pf pf' r,
  (pf_ntevs pf <= pf_max_tevs pf)%nat ->
  find_probe_points fill_probe_point pf addrs = (pf', r) ->
  (pf_ntevs pf' <= pf_max_tevs pf')%nat /\
  pf_max_tevs pf' = pf_max_tevs pf /\
  List.length (pf_tevs pf') = List.length (pf_tevs pf) /\
  (pf_ntevs pf <= pf_ntevs pf' <= pf_ntevs pf + List.length addrs)%nat /\
  firstn (pf_ntevs pf) (pf_tevs pf') = firstn (pf_ntevs pf) (pf_tevs pf).
Proof.
  intros fill addrs. induction addrs as [|a rest IH]; intros pf pf' r Hle Hrun.
  - injection Hrun as <- _. repeat split; simpl; lia.
  - cbn [find_probe_points] in Hrun. unfold convert_probe_point in Hrun.
    destruct (Nat.eqb_spec (pf_ntevs pf) (pf_max_tevs pf)) as [Heq|Hne].
    + injection Hrun as <- _. repeat split; simpl; lia.
    + destruct (fill a) as [ret tev].
      set (pf1 := mkPFE (S (pf_ntevs pf)) (pf_max_tevs pf)
                        (list_set (pf_tevs pf) (pf_ntevs pf) tev)) in Hrun.
      assert (H1 : (pf_ntevs pf1 <= pf_max_tevs pf1)%nat) by (simpl; lia).
      assert (Hlen1 : List.length (pf_tevs pf1) = List.length (pf_tevs pf))
        by (simpl; apply list_set_length).
      assert (Hpre1 : firstn (pf_ntevs pf) (pf_tevs pf1) = firstn (pf_ntevs pf) (pf_tevs pf))
        by (simpl; apply firstn_list_set).
      destruct ret as [u|e|].
      * destruct (IH pf1 pf' r H1 Hrun) as (Hc & Hm & Hl & Hn & Hp).
        rewrite Hlen1 in Hl. rewrite <- Hpre1.
        assert (Hn1 : pf_ntevs pf1 = S (pf_ntevs pf)) by reflexivity.
        assert (Hm1 : pf_max_tevs pf1 = pf_max_tevs pf) by reflexivity.
        rewrite Hn1 in Hn, Hp. rewrite Hm1 in Hm.
        cbn [List.length]. repeat split; [lia|lia|exact Hl|lia|lia|].
        assert (Hff : forall l : list kprobe_trace_event,
                  firstn (pf_ntevs pf) l = firstn (pf_ntevs pf) (firstn (S (pf_ntevs pf)) l))
          by (intro l; rewrite firstn_firstn, Nat.min_l by lia; reflexivity).
        rewrite (Hff (pf_tevs pf')), (Hff (pf_tevs pf1)), Hp. reflexivity.
      * injection Hrun as <- _. repeat split; simpl in *; try lia; assumption.
      * injection Hrun as <- _. repeat split; simpl in *; try lia; assumption.
Qed.

Lemma find_probe_points_capacity_witness :
  (pf_ntevs (pf_events_init 1) <= pf_max_tevs (pf_events_init 1))%nat /\
  let '(pf', r) := find_probe_points sample_fill (pf_events_init 1) [4096; 4100] in
  (pf_ntevs pf' <= pf_max_tevs pf')%nat /\
  pf_max_tevs pf' = pf_max_tevs (pf_events_init 1) /\
  List.length (pf_tevs pf') = List.length (pf_tevs (pf_events_init 1)) /\
  (pf_ntevs (pf_events_init 1) <= pf_ntevs pf' <= pf_ntevs (pf_events_init 1) + 2)%nat /\
  firstn (pf_ntevs (pf_events_init 1)) (pf_tevs pf')
    = firstn (pf_ntevs (pf_events_init 1)) (pf_tevs (pf_events_init 1)).
Proof.
  split; [simpl; lia|].
  destruct (find_probe_points sample_fill (pf_events_init 1) [4096; 4100]) as [pf' r] eqn:E.
  exact (find_probe_points_capacity sample_fill [4096; 4100] (pf_events_init 1) pf' r
           ltac:(simpl; lia) E).
Defined.

(** ** Line range finder *)

Lemma line_list_add_sorted : forall l n,
  StronglySorted Z.lt l ->
  StronglySorted Z.lt (snd (line_list__add_line l n)) /\
  (forall x, In x (snd (line_list__add_line l n)) <-> x = n \/ In x l).
Proof.
  intros l n Hs. unfold line_list__add_line.
  pose proof (line_list_rsearch_spec (rev l) n (StronglySorted_rev _ l Hs)) as Hr.
  destruct (line_list_rsearch (rev l) n) as [rl|]; simpl.
  - destruct Hr as (Hs' & Hin & _). split.
    + apply StronglySorted_lt_rev. rewrite rev_involutive. exact Hs'.
    + intro x. rewrite <- in_rev, Hin, <- in_rev. reflexivity.
  - split; [exact Hs|]. intro x. rewrite <- in_rev in Hr. intuition congruence.
Qed.

Lemma lr_fields_kept_refl : forall lr, lr_fields_kept lr lr.
Proof. intro lr. repeat split. Qed.

Lemma lr_fields_kept_trans : forall a b c,
  lr_fields_kept a b -> lr_fields_kept b c -> lr_fields_kept a c.
Proof.
  intros a b c (H1 & H2 & H3 & H4 & H5) (G1 & G2 & G3 & G4 & G5).
  repeat split; congruence.
Qed.

Lemma line_range_add_line_kept : forall access source_prefix src lineno lr r lr',
  line_range_add_line access source_prefix src lineno lr = (r, lr') ->
  lr_fields_kept lr lr'.
Proof.
  intros access pre src lineno lr r lr' H. unfold line_range_add_line in H.
  destruct (lr_path lr) as [p|].
  - destruct (line_list__add_line _ _). injection H as _ <-. repeat split.
  - destruct src as [s|]; [|destruct pre; injection H as _ <-; apply lr_fields_kept_refl].
    destruct (get_real_path access pre s) as [[q|e|]|];
      try (injection H as _ <-; apply lr_fields_kept_refl).
    destruct (line_list__add_line _ _). injection H as _ <-. repeat split.
Qed.

Lemma line_range_add_line_inv : forall access source_prefix lf src lineno lr r lr',
  lr_lines_inv lf lr -> lf_lno_s lf <= lineno <= lf_lno_e lf ->
  line_range_add_line access source_prefix src lineno lr = (r, lr') ->
  lr_lines_inv lf lr'.
Proof.
  intros access pre lf src lineno lr r lr' (Hs & Hb & Hp) Hln H.
  assert (Hadd : forall lr1, lr_lines_inv lf lr1 -> lr_path lr1 <> None ->
            lr_lines_inv lf (lr_with_lines lr1 (snd (line_list__add_line (lr_line_list lr1) lineno)))).
  { intros lr1 (Hs1 & Hb1 & _) Hp1.
    destruct (line_list_add_sorted (lr_line_list lr1) lineno Hs1) as [Hs2 Hin2].
    split; [exact Hs2|]. split; [|intros _; exact Hp1].
    apply Forall_forall. intros x Hx. apply Hin2 in Hx as [->|Hx]; [exact Hln|].
    rewrite Forall_forall in Hb1. apply Hb1, Hx. }
  assert (Hi : lr_lines_inv lf lr) by (split; [exact Hs|split; [exact Hb|exact Hp]]).
  clear Hs Hb Hp. unfold line_range_add_line in H.
  destruct (lr_path lr) as [p|] eqn:Ep.
  - destruct (line_list__add_line (lr_line_list lr) lineno) as [k l] eqn:E.
    injection H as _ <-. change l with (snd (k, l)). rewrite <- E.
    apply Hadd; [exact Hi|rewrite Ep; discriminate].
  - destruct src as [s|]; [|destruct pre; injection H as _ <-; exact Hi].
    destruct (get_real_path access pre s) as [[q|e|]|];
      try (injection H as _ <-; exact Hi).
    destruct Hi as (Hs & Hb & _).
    destruct (line_list__add_line (lr_line_list (lr_with_path lr (Some q))) lineno) as [k l] eqn:E.
    injection H as _ <-. change l with (snd (k, l)). rewrite <- E.
    apply Hadd; [split; [exact Hs|split; [exact Hb|]]|discriminate].
    intros _. discriminate.
Qed.

Lemma in_line_range_bounds : forall lf x,
  in_line_range lf x = true -> lf_lno_s lf <= x <= lf_lno_e lf.
Proof.
  intros lf x H. unfold in_line_range in H. apply andb_true_iff in H as [H1 H2].
  apply Z.leb_le in H1. apply Z.leb_le in H2. lia.
Qed.

Lemma line_range_lines_loop_inv : forall access source_prefix sp lf lines ret lr r lr',
  lr_lines_inv lf lr ->
  line_range_lines_loop access source_prefix sp lf ret lines lr = (r, lr') ->
  lr_lines_inv lf lr' /\ lr_fields_kept lr lr'.
Proof.
  intros access pre sp lf lines. induction lines as [|l rest IH]; intros ret lr r lr' Hi H.
  - injection H as _ <-. split; [exact Hi|apply lr_fields_kept_refl].
  - cbn [line_range_lines_loop] in H.
    destruct (ln_lineno l) as [n|]; [|exact (IH _ _ _ _ Hi H)].
    destruct (in_line_range lf n) eqn:Er; cbn [negb] in H; [|exact (IH _ _ _ _ Hi H)].
    destruct (match sp with Some _ => _ | None => true end); cbn [negb] in H;
      [|exact (IH _ _ _ _ Hi H)].
    destruct (tail_match (ln_src l) (lf_fname lf)) as [[|]|];
      [|exact (IH _ _ _ _ Hi H)|injection H as _ <-; split; [exact Hi|apply lr_fields_kept_refl]].
    destruct (line_range_add_line access pre (ln_src l) n lr) as [[k|e|] lr1] eqn:Ea;
      pose proof (line_range_add_line_inv _ _ lf _ _ _ _ _ Hi (in_line_range_bounds _ _ Er) Ea) as Hi1;
      pose proof (line_range_add_line_kept _ _ _ _ _ _ _ Ea) as Hk1.
    + destruct (IH _ _ _ _ Hi1 H) as [Hi2 Hk2].
      split; [exact Hi2|exact (lr_fields_kept_trans _ _ _ Hk1 Hk2)].
    + injection H as _ <-. split; assumption.
    + injection H as _ <-. split; assumption.
Qed.

Lemma funcdecl_lines_loop_inv : forall access source_prefix dwarf_decl_file lf sps ret lr r lr',
  lr_lines_inv lf lr ->
  funcdecl_lines_loop access source_prefix dwarf_decl_file lf ret sps lr = (r, lr') ->
  lr_lines_inv lf lr' /\ lr_fields_kept lr lr'.
Proof.
  intros access pre ddf lf sps. induction sps as [|sp rest IH]; intros ret lr r lr' Hi H.
  - injection H as _ <-. split; [exact Hi|apply lr_fields_kept_refl].
  - cbn [funcdecl_lines_loop] in H.
    destruct (match ddf sp with Some _ => _ | None => Some true end) as [[|]|];
      [|exact (IH _ _ _ _ Hi H)|injection H as _ <-; split; [exact Hi|apply lr_fields_kept_refl]].
    destruct (dwarf_decl_line sp) as [n|]; [|exact (IH _ _ _ _ Hi H)].
    destruct (in_line_range lf n) eqn:Er; cbn [negb] in H; [|exact (IH _ _ _ _ Hi H)].
    destruct (line_range_add_line access pre (ddf sp) n lr) as [[k|e|] lr1] eqn:Ea;
      pose proof (line_range_add_line_inv _ _ lf _ _ _ _ _ Hi (in_line_range_bounds _ _ Er) Ea) as Hi1;
      pose proof (line_range_add_line_kept _ _ _ _ _ _ _ Ea) as Hk1.
    + destruct (IH _ _ _ _ Hi1 H) as [Hi2 Hk2].
      split; [exact Hi2|exact (lr_fields_kept_trans _ _ _ Hk1 Hk2)].
    + injection H as _ <-. split; assumption.
    + injection H as _ <-. split; assumption.
Qed.

Lemma find_line_range_by_line_inv : forall access source_prefix dwarf_decl_file cu_srclines
    sp lf lr r lr',
  find_line_range_by_line access source_prefix dwarf_decl_file cu_srclines sp lf lr = (r, lr') ->
  lr_fields_kept lr lr' /\
  (forall k, r = Ok k -> lr_lines_inv lf lr' /\
                         ((k = 1 /\ lr_line_list lr' <> []) \/ (k = 0 /\ lr_line_list lr' = []))).
Proof.
  intros access pre ddf csl sp lf lr r lr' H. unfold find_line_range_by_line in H.
  assert (Hi0 : lr_lines_inv lf (lr_with_lines lr [])).
  { split; [constructor|]. split; [constructor|]. intro Hn. contradiction. }
  assert (Hk0 : lr_fields_kept lr (lr_with_lines lr [])) by (repeat split).
  destruct (csl (lf_cu lf)) as [lines|];
    [|injection H as <- <-; split; [exact Hk0|intros k Hk; discriminate]].
  destruct (line_range_lines_loop access pre sp lf 0 lines (lr_with_lines lr []))
    as [[ret|e|] lr1] eqn:El;
    destruct (line_range_lines_loop_inv _ _ _ _ _ _ _ _ _ Hi0 El) as [Hi1 Hk1];
    pose proof (lr_fields_kept_trans _ _ _ Hk0 Hk1) as Hk01;
    [| injection H as <- <-; split; [exact Hk01|intros k Hk; discriminate]
     | injection H as <- <-; split; [exact Hk01|intros k Hk; discriminate]].
  assert (Hdecl : forall ret2 lr2,
            (match sp with
             | Some s =>
               match ddf s, dwarf_decl_line s with
               | Some src, Some lineno =>
                 if in_line_range lf lineno then line_range_add_line access pre (Some src) lineno lr1
                 else (Ok ret, lr1)
               | _, _ => (Ok ret, lr1)
               end
             | None => find_line_range_func_decl_lines access pre ddf lf lr1
             end) = (ret2, lr2) ->
            lr_lines_inv lf lr2 /\ lr_fields_kept lr1 lr2).
  { intros ret2 lr2 Hd. destruct sp as [s|].
    - destruct (ddf s) as [src|], (dwarf_decl_line s) as [n|];
        try (injection Hd as _ <-; split; [exact Hi1|apply lr_fields_kept_refl]).
      destruct (in_line_range lf n) eqn:Er;
        [|injection Hd as _ <-; split; [exact Hi1|apply lr_fields_kept_refl]].
      split; [exact (line_range_add_line_inv _ _ lf _ _ _ _ _ Hi1 (in_line_range_bounds _ _ Er) Hd)
             |exact (line_range_add_line_kept _ _ _ _ _ _ _ Hd)].
    - exact (funcdecl_lines_loop_inv _ _ _ _ _ _ _ _ _ Hi1 Hd). }
  destruct (match sp with Some _ => _ | None => _ end) as [ret2 lr2] eqn:Ed.
  destruct (Hdecl ret2 lr2 eq_refl) as [Hi2 Hk2].
  pose proof (lr_fields_kept_trans _ _ _ Hk01 Hk2) as Hk02.
  destruct ret2 as [k2|e2|].
  - destruct (lr_line_list lr2) as [|x xs] eqn:Ell; injection H as <- <-;
      (split; [exact Hk02|intros k Hk; injection Hk as <-; split; [exact Hi2|]]).
    + right. split; [reflexivity|exact Ell].
    + left. split; [reflexivity|rewrite Ell; discriminate].
  - injection H as <- <-. split; [|intros k Hk; discriminate].
    destruct Hk02 as (G1 & G2 & G3 & G4 & G5). repeat split; assumption.
  - injection H as <- <-. split; [exact Hk02|intros k Hk; discriminate].
Qed.

(** X19. When find_line_range_by_line succeeds, its result is 1 with a
    non-empty line list or 0 with an empty one; the list is ascending
    without duplicates, holds only lines within [lno_s, lno_e], and is
    non-empty only with the source path set. The file, function,
    start, end and offset fields of the range are left unchanged. *)
Theorem find_line_range_by_line_result : forall access source_prefix dwarf_decl_file
    cu_srclines sp lf lr k lr',
  find_line_range_by_line access source_prefix dwarf_decl_file cu_srclines sp lf lr
    = (Ok k, lr') ->
  ((k = 1 /\ lr_line_list lr' <> []) \/ (k = 0 /\ lr_line_list lr' = [])) /\
  StronglySorted Z.lt (lr_line_list lr') /\
  Forall (fun x => lf_lno_s lf <= x <= lf_lno_e lf) (lr_line_list lr') /\
  (lr_line_list lr' <> [] -> lr_path lr' <> None) /\
  lr_fields_kept lr lr'.
Proof.
  intros access pre ddf csl sp lf lr k lr' H.
  destruct (find_line_range_by_line_inv _ _ _ _ _ _ _ _ _ H) as [Hk Hok].
  destruct (Hok k eq_refl) as [(Hs & Hb & Hp) Hr].
  split; [exact Hr|]. split; [exact Hs|]. split; [exact Hb|]. split; [exact Hp|exact Hk].
Qed.

Lemma find_line_range_by_line_result_witness :
  find_line_range_by_line (fun _ => 0) None (fun _ => Some "/src/kernel/foo.c"%string)
    (fun _ => Some sample_lines) None (mkLF sample_cu (Some "foo.c"%string) 10 11)
    (mkLR None None 10 11 0 None [])
  = (Ok 1, mkLR None None 10 11 0 (Some "/src/kernel/foo.c"%string) [10; 11]) /\
  lr_line_list (mkLR None None 10 11 0 (Some "/src/kernel/foo.c"%string) [10; 11]) <> [] /\
  StronglySorted Z.lt [10; 11].
Proof.
  assert (E : find_line_range_by_line (fun _ => 0) None (fun _ => Some "/src/kernel/foo.c"%string)
    (fun _ => Some sample_lines) None (mkLF sample_cu (Some "foo.c"%string) 10 11)
    (mkLR None None 10 11 0 None [])
    = (Ok 1, mkLR None None 10 11 0 (Some "/src/kernel/foo.c"%string) [10; 11]))
    by (vm_compute; reflexivity).
  destruct (find_line_range_by_line_result _ _ _ _ _ _ _ _ _ E) as ([[_ Hne]|[Hk _]] & Hs & _).
  - split; [exact E|]. split; [exact Hne|exact Hs].
  - discriminate Hk.
Defined.

Lemma line_bound_int : forall offset rel,
  - 2 ^ 31 <= offset + rel < 2 ^ 32 ->
  line_bound offset rel = if offset + rel <? 0 then INT_MAX else Z.min (offset + rel) INT_MAX.
Proof.
  intros offset rel H. unfold line_bound, int_of_Z, INT_MAX.
  set (v := offset + rel) in *.
  destruct (Z.ltb_spec v 0).
  - rewrite <- (Z.mod_unique v (2 ^ 32) (-1) (v + 2 ^ 32)) by lia.
    destruct (Z.ltb_spec (v + 2 ^ 32) (2 ^ 31)); [lia|].
    destruct (Z.ltb_spec (v + 2 ^ 32 - 2 ^ 32) 0); [reflexivity|lia].
  - rewrite Z.mod_small by lia.
    destruct (Z.ltb_spec v (2 ^ 31)).
    + destruct (Z.ltb_spec v 0); [lia|]. lia.
    + destruct (Z.ltb_spec (v - 2 ^ 32) 0); [lia|lia].
Qed.

(** X20. When the CU has a subprogram named [func], find_line_range_by_func
    takes the file from its declaration and rebases the range on its
    declaration line (or on [lr->offset] when that is missing): each
    bound becomes [offset + start] (resp. [offset + end]), saturated at
    INT_MAX, and a negative sum also becomes INT_MAX; [lr] gets the same
    bounds and the offset, whatever the line search then returns. *)
Theorem find_line_range_by_func_bounds : forall access source_prefix dwarf_decl_file
    dwarf_func_inline dwarf_func_inline_instances cu_srclines func lf lr sp,
  find (fun sp => negb (die_compare_name sp func)) (cu_subprograms (lf_cu lf)) = Some sp ->
  let offset := match dwarf_decl_line sp with Some l => l | None => lr_offset lr end in
  - 2 ^ 31 <= offset + lr_start lr < 2 ^ 32 ->
  - 2 ^ 31 <= offset + lr_end lr < 2 ^ 32 ->
  let '(lf', (r, lr')) := find_line_range_by_func access source_prefix dwarf_decl_file
                            dwarf_func_inline dwarf_func_inline_instances cu_srclines
                            func lf lr in
  lf_fname lf' = dwarf_decl_file sp /\
  lf_lno_s lf' = (if offset + lr_start lr <? 0 then INT_MAX
                  else Z.min (offset + lr_start lr) INT_MAX) /\
  lf_lno_e lf' = (if offset + lr_end lr <? 0 then INT_MAX
                  else Z.min (offset + lr_end lr) INT_MAX) /\
  lr_start lr' = lf_lno_s lf' /\ lr_end lr' = lf_lno_e lf' /\ lr_offset lr' = offset.
Proof.
  intros access pre ddf dfi dfii csl func lf lr sp Hf offset Hs He.
  unfold find_line_range_by_func. rewrite Hf. fold offset.
  rewrite <- (line_bound_int offset (lr_start lr) Hs), <- (line_bound_int offset (lr_end lr) He).
  set (lf' := mkLF (lf_cu lf) (ddf sp) (line_bound offset (lr_start lr))
                   (line_bound offset (lr_end lr))).
  set (lr1 := mkLR (lr_file lr) (lr_function lr) (line_bound offset (lr_start lr))
                   (line_bound offset (lr_end lr)) offset (lr_path lr) (lr_line_list lr)).
  assert (Hby : forall s, let '(r, lr') := find_line_range_by_line access pre ddf csl (Some s) lf' lr1 in
            lr_start lr' = lf_lno_s lf' /\ lr_end lr' = lf_lno_e lf' /\ lr_offset lr' = offset).
  { intro s. destruct (find_line_range_by_line access pre ddf csl (Some s) lf' lr1) as [r lr'] eqn:E.
    destruct (find_line_range_by_line_inv _ _ _ _ _ _ _ _ _ E) as [(_ & _ & H3 & H4 & H5) _].
    rewrite H3, H4, H5. split; [|split]; reflexivity. }
  destruct (dfi sp).
  - destruct (dfii sp) as [|inst rest].
    + repeat split.
    + specialize (Hby inst). destruct (find_line_range_by_line _ _ _ _ _ _ _) as [r lr'].
      repeat split; apply Hby.
  - specialize (Hby sp). destruct (find_line_range_by_line _ _ _ _ _ _ _) as [r lr'].
    repeat split; apply Hby.
Qed.

Lemma find_line_range_by_func_bounds_witness :
  find (fun sp => negb (die_compare_name sp "foo")) (cu_subprograms sample_cu) = Some sample_foo /\
  find_line_range_by_func (fun _ => 0) None (fun _ => Some "/src/kernel/foo.c"%string)
    (fun _ => false) (fun _ => []) (fun _ => Some sample_lines) "foo"
    (mkLF sample_cu None 0 0) (mkLR None (Some "foo"%string) 0 2 0 None [])
  = (mkLF sample_cu (Some "/src/kernel/foo.c"%string) 10 12,
     (Ok 1, mkLR None (Some "foo"%string) 10 12 10 (Some "/src/kernel/foo.c"%string) [10; 11])).
Proof.
  split; [reflexivity|].
  pose proof (find_line_range_by_func_bounds (fun _ => 0) None
                (fun _ => Some "/src/kernel/foo.c"%string) (fun _ => false) (fun _ => [])
                (fun _ => Some sample_lines) "foo" (mkLF sample_cu None 0 0)
                (mkLR None (Some "foo"%string) 0 2 0 None []) sample_foo eq_refl
                ltac:(simpl; lia) ltac:(simpl; lia)) as H.
  vm_compute in H |- *. reflexivity.
Defined.

Lemma nth_error_skipn_cons : forall {A} (l : list A) n x,
  nth_error l n = Some x -> skipn n l = x :: skipn (S n) l.
Proof.
  induction l as [|y r IH]; intros n x H; [destruct n; discriminate|].
  destruct n as [|n]; simpl in H |- *; [injection H as ->; reflexivity|].
  apply IH, H.
Qed.

(** X21. When every CU DIE can be read, the CU loop of find_line_range
    ends: it needs at most one turn per CU plus the final one. *)
Theorem find_line_range_terminates : forall access source_prefix dwarf_decl_file
    dwarf_func_inline dwarf_func_inline_instances cu_srclines cu_srcfiles cus fuel lr,
  Forall (fun cu => cu <> None) cus ->
  (List.length cus < fuel)%nat ->
  find_line_range access source_prefix dwarf_decl_file dwarf_func_inline
    dwarf_func_inline_instances cu_srclines cu_srcfiles cus fuel lr <> None.
Proof.
  intros access pre ddf dfi dfii csl csf cus fuel lr Hall Hfuel.
  assert (Hloop : forall fuel off found ret lr,
            Forall (fun cu => cu <> None) (skipn off cus) ->
            (List.length cus - off < fuel)%nat ->
            find_line_range_loop access pre ddf dfi dfii csl csf cus fuel off found ret lr <> None).
  { clear fuel lr Hall Hfuel.
    induction fuel as [|fuel IH]; intros off found ret lr Hs Hf; [lia|].
    cbn [find_line_range_loop].
    destruct (found || _); [intro Habs; discriminate Habs|].
    destruct (nth_error cus off) as [[cu|]|] eqn:En; [| |intro Habs; discriminate Habs].
    - apply IH.
      + rewrite (nth_error_skipn_cons cus off _ En) in Hs. inversion Hs; assumption.
      + assert (off < List.length cus)%nat by (apply nth_error_Some; rewrite En; discriminate).
        lia.
    - rewrite (nth_error_skipn_cons cus off _ En) in Hs. inversion Hs as [|? ? Hn].
      contradiction. }
  unfold find_line_range.
  specialize (Hloop fuel 0%nat false (Ok 0) lr ltac:(exact Hall) ltac:(lia)).
  destruct (find_line_range_loop _ _ _ _ _ _ _ _ _ _ _ _ _) as [[[ret found] lr']|];
    [discriminate|contradiction].
Qed.

Lemma find_line_range_terminates_witness :
  Forall (fun cu => cu <> None) [Some sample_cu] /\
  (List.length [Some sample_cu] < 2)%nat /\
  match find_line_range (fun _ => 0) None (fun _ => Some "/src/kernel/foo.c"%string)
          (fun _ => false) (fun _ => []) (fun _ => Some sample_lines)
          (fun _ => Some ["/src/kernel/foo.c"%string])
          [Some sample_cu] 2 (mkLR (Some "foo.c"%string) None 10 11 0 None []) with
  | Some _ => True
  | None => False
  end.
Proof.
  split; [repeat constructor; discriminate|]. split; [simpl; lia|].
  destruct (find_line_range _ _ _ _ _ _ _ _ _ _) eqn:E; [exact I|].
  exact (find_line_range_terminates (fun _ => 0) None (fun _ => Some "/src/kernel/foo.c"%string)
           (fun _ => false) (fun _ => []) (fun _ => Some sample_lines)
           (fun _ => Some ["/src/kernel/foo.c"%string]) [Some sample_cu] 2
           (mkLR (Some "foo.c"%string) None 10 11 0 None [])
           ltac:(repeat constructor; discriminate) ltac:(simpl; lia) E).
Defined.

(** X22. Once the CU loop of find_line_range reaches a CU whose DIE
    cannot be read while nothing has been found and no error occurred,
    it never ends: [continue] skips [off = noff], so the same CU is read
    again at every turn. *)
Theorem find_line_range_unreadable_cu_loops : forall access source_prefix dwarf_decl_file
    dwarf_func_inline dwarf_func_inline_instances cu_srclines cu_srcfiles cus off,
  nth_error cus off = Some None ->
  forall fuel k lr,
    find_line_range_loop access source_prefix dwarf_decl_file dwarf_func_inline
      dwarf_func_inline_instances cu_srclines cu_srcfiles cus fuel off false (Ok k) lr = None.
Proof.
  intros access pre ddf dfi dfii csl csf cus off Hn fuel.
  induction fuel as [|fuel IH]; intros k lr; [reflexivity|].
  cbn [find_line_range_loop orb]. rewrite Hn. apply IH.
Qed.

Lemma find_line_range_unreadable_cu_loops_witness :
  nth_error [None; Some sample_cu] 0 = Some None /\
  find_line_range (fun _ => 0) None (fun _ => None) (fun _ => false) (fun _ => [])
    (fun _ => None) (fun _ => None) [None; Some sample_cu] 1000
    (mkLR None None 1 10 0 None []) = None.
Proof.
  split; [reflexivity|]. unfold find_line_range.
  rewrite (find_line_range_unreadable_cu_loops (fun _ => 0) None (fun _ => None) (fun _ => false)
             (fun _ => []) (fun _ => None) (fun _ => None) [None; Some sample_cu] 0 eq_refl).
  reflexivity.
Defined.

Lemma string_append_assoc : forall a b c : string,
  (a ++ (b ++ c))%string = ((a ++ b) ++ c)%string.
Proof. induction a as [|x a IH]; intros b c; simpl; [reflexivity|rewrite IH; reflexivity]. Qed.

Lemma strchr_split : forall s c r,
  strchr s c = Some r -> exists pre rest, s = (pre ++ r)%string /\ r = String c rest.
Proof.
  induction s as [|x s IH]; intros c r H; [discriminate|]. simpl in H.
  destruct (Ascii.eqb_spec x c) as [->|Hx].
  - injection H as <-. exists EmptyString, s. split; reflexivity.
  - destruct (uchar x =? 0); [discriminate|].
    destruct (IH c r H) as (pre & rest & -> & ->).
    exists (String x pre), rest. split; reflexivity.
Qed.

Lemma get_real_path_loop_found : forall access prefix fuel raw p,
  get_real_path_loop access prefix fuel raw = Some (Ok p) ->
  exists pre t, raw = (pre ++ t)%string /\
    (pre = EmptyString \/ exists r, t = String "/"%char r) /\
    p = (cstr prefix ++ "/" ++ cstr t)%string /\ access p = 0.
Proof.
  intros access prefix fuel. induction fuel as [|fuel IH]; intros raw p H; [discriminate|].
  cbn [get_real_path_loop] in H. unfold get_real_path_step in H.
  destruct (Z.eqb_spec (access (cstr prefix ++ "/" ++ cstr raw)%string) 0) as [Ha|Ha].
  - injection H as <-. exists EmptyString, raw. split; [reflexivity|].
    split; [left; reflexivity|]. split; [reflexivity|exact Ha].
  - destruct (retry_errno _); [|discriminate].
    destruct raw as [|c r]; [discriminate|].
    destruct (uchar c =? 0); [discriminate|].
    destruct (strchr r "/"%char) as [r'|] eqn:Es; [|discriminate].
    destruct (IH r' p H) as (pre & t & Hr' & Ht & Hp & Hacc).
    destruct (strchr_split r "/"%char r' Es) as (pre0 & rest & Hr & Hr'').
    exists (String c (pre0 ++ pre))%string, t. split.
    + rewrite Hr, Hr'. simpl. rewrite <- string_append_assoc. reflexivity.
    + split; [|split; [exact Hp|exact Hacc]].
      right. destruct Ht as [->|Ht]; [|exact Ht].
      simpl in Hr'. rewrite <- Hr', Hr''. eexists. reflexivity.
Qed.

(** X23. A path get_real_path reports as found is readable ([access]
    returned 0). Without a source prefix it is the raw path itself; with
    a prefix it is the prefix, ['/'], and a tail of the raw path that is
    either the whole raw path or starts at one of its ['/'] separators
    (leading directories that do not exist are chopped off). *)
Theorem get_real_path_found : forall access source_prefix raw p,
  get_real_path access source_prefix raw = Some (Ok p) ->
  access p = 0 /\
  match source_prefix with
  | None => p = cstr raw
  | Some prefix =>
    exists pre t, raw = (pre ++ t)%string /\
      (pre = EmptyString \/ exists r, t = String "/"%char r) /\
      p = (cstr prefix ++ "/" ++ cstr t)%string
  end.
Proof.
  intros access pre raw p H. unfold get_real_path in H. destruct pre as [prefix|].
  - destruct (get_real_path_loop_found _ _ _ _ _ H) as (pr & t & Hr & Ht & Hp & Ha).
    split; [exact Ha|]. exists pr, t. split; [exact Hr|]. split; [exact Ht|exact Hp].
  - destruct (Z.eqb_spec (access (cstr raw)) 0) as [Ha|Ha]; [|discriminate].
    injection H as <-. split; [exact Ha|reflexivity].
Qed.

Lemma get_real_path_found_witness :
  get_real_path (fun p => if String.eqb p "/usr/src//kernel/sched.c" then 0 else ENOENT)
    (Some "/usr/src"%string) "/build/kernel/sched.c"
    = Some (Ok "/usr/src//kernel/sched.c"%string) /\
  (fun p => if String.eqb p "/usr/src//kernel/sched.c" then 0 else ENOENT)
    "/usr/src//kernel/sched.c"%string = 0.
Proof.
  assert (E : get_real_path (fun p => if String.eqb p "/usr/src//kernel/sched.c" then 0 else ENOENT)
    (Some "/usr/src"%string) "/build/kernel/sched.c"
    = Some (Ok "/usr/src//kernel/sched.c"%string)) by (vm_compute; reflexivity).
  split; [exact E|exact (proj1 (get_real_path_found _ _ _ _ E))].
Defined.
